(** * Google Meet / StreamController bridge: reconciler, signing and session client

    A shallow embedding of the Chrome extension's core modules
    ([meeting-tab-state-manager.js], [auth-manager.js], [pairing-manager.js],
    [websocket-manager.js], [streamcontroller-client]) together with the
    properties of the design document that concern them.

    Conventions of the embedding:
    - a JavaScript string is the list of its UTF-16 code units;
    - a JavaScript object whose keys are tab identifiers is a [gmap N _];
      its own keys are enumerated in ascending numeric order, which is what
      [Object.keys] does for integer keys;
    - every [Date.now()] of the source is a separate argument of the
      embedded function, in the order in which the source reads the clock;
    - [async] functions are run to completion: the calls to
      [chrome.storage.local] are taken to succeed and are not interleaved
      with other operations;
    - a thrown [Error] is the [Throw] result of the operation. *)

From Stdlib Require Import ZArith NArith Lia Ascii String DecimalString.
From stdpp Require Import base tactics option list sorting gmap.

#[local] Set Warnings "-register-all".
Local Open Scope Z_scope.

(** ** The JavaScript platform *)

Module JS.

(** UTF-16 code units. *)
Definition jsstring := list N.

(** A literal of the source, all of whose characters are Latin-1. *)
Definition js (s : string) : jsstring :=
  map N_of_ascii (list_ascii_of_string s).

Definition quote_mark : N := 34%N.
Definition backslash : N := 92%N.

(** JSON-compatible values; numbers are the integers the program uses
    (counts and timestamps). *)
Inductive json :=
| JNull
| JBool (b : bool)
| JNum (z : Z)
| JStr (s : jsstring)
| JArr (items : list json)
| JObj (props : list (jsstring * json)).

(** Results of operations that may throw. *)
Inductive Result (A : Type) :=
| Ok (a : A)
| Throw (message : string).
Arguments Ok {A} a.
Arguments Throw {A} message.

Definition bind {A B} (r : Result A) (k : A → Result B) : Result B :=
  match r with
  | Ok a => k a
  | Throw message => Throw message
  end.

(** *** Objects with string keys: properties in insertion order *)

Fixpoint obj_get (k : jsstring) (props : list (jsstring * json)) : option json :=
  match props with
  | [] => None
  | (k', v) :: rest => if decide (k' = k) then Some v else obj_get k rest
  end.

(** [o[k] = v]: an existing property keeps its position, a new one is
    added at the end. *)
Fixpoint obj_set (k : jsstring) (v : json) (props : list (jsstring * json))
  : list (jsstring * json) :=
  match props with
  | [] => [(k, v)]
  | (k', v') :: rest =>
      if decide (k' = k) then (k, v) :: rest else (k', v') :: obj_set k v rest
  end.

(** [v === 'literal']; an absent property is [undefined]. *)
Definition is_string (v : option json) (literal : jsstring) : bool :=
  match v with
  | Some (JStr s) => bool_decide (s = literal)
  | _ => false
  end.

(** *** [JSON.stringify] *)

Definition hex_digit (n : N) : N :=
  nth (N.to_nat n) (js "0123456789abcdef") 0%N.

Definition u_escape (c : N) : jsstring :=
  [backslash; 117%N;
   hex_digit (c / 4096 mod 16); hex_digit (c / 256 mod 16);
   hex_digit (c / 16 mod 16); hex_digit (c mod 16)]%N.

Definition is_high_surrogate (c : N) : bool := ((55296 <=? c) && (c <=? 56319))%N.
Definition is_low_surrogate (c : N) : bool := ((56320 <=? c) && (c <=? 57343))%N.

Definition escape_unit (c : N) : jsstring :=
  if (c =? 8)%N then [backslash; 98%N]
  else if (c =? 9)%N then [backslash; 116%N]
  else if (c =? 10)%N then [backslash; 110%N]
  else if (c =? 12)%N then [backslash; 102%N]
  else if (c =? 13)%N then [backslash; 114%N]
  else if (c =? quote_mark)%N then [backslash; quote_mark]
  else if (c =? backslash)%N then [backslash; backslash]
  else if (c <? 32)%N then u_escape c
  else [c].

Fixpoint quote_units (s : jsstring) : jsstring :=
  match s with
  | [] => []
  | c :: rest =>
      if is_high_surrogate c then
        match rest with
        | d :: rest' =>
            if is_low_surrogate d then c :: d :: quote_units rest'
            else u_escape c ++ quote_units rest
        | [] => u_escape c
        end
      else if is_low_surrogate c then u_escape c ++ quote_units rest
      else escape_unit c ++ quote_units rest
  end.

Definition quote (s : jsstring) : jsstring :=
  quote_mark :: quote_units s ++ [quote_mark].

Definition number_to_string (z : Z) : jsstring :=
  js (NilZero.string_of_int (Z.to_int z)).

Fixpoint JSON_stringify (v : json) : jsstring :=
  match v with
  | JNull => js "null"
  | JBool true => js "true"
  | JBool false => js "false"
  | JNum z => number_to_string z
  | JStr s => quote s
  | JArr items =>
      js "[" ++
      (fix elements (l : list json) : jsstring :=
         match l with
         | [] => []
         | [x] => JSON_stringify x
         | x :: rest => JSON_stringify x ++ js "," ++ elements rest
         end) items ++ js "]"
  | JObj props =>
      js "{" ++
      (fix members (l : list (jsstring * json)) : jsstring :=
         match l with
         | [] => []
         | [(k, x)] => quote k ++ js ":" ++ JSON_stringify x
         | (k, x) :: rest =>
             quote k ++ js ":" ++ JSON_stringify x ++ js "," ++ members rest
         end) props ++ js "}"
  end.

(** *** [btoa] *)

Definition b64_digit (n : N) : N :=
  nth (N.to_nat n)
    (js "ABCDEFGHIJKLMNOPQRSTUVWXYZabcdefghijklmnopqrstuvwxyz0123456789+/") 0%N.

Definition pad : N := 61%N.

Fixpoint b64_groups (bs : list N) : jsstring :=
  match bs with
  | [] => []
  | [a] => [b64_digit (a / 4); b64_digit (a mod 4 * 16); pad; pad]%N
  | [a; b] =>
      [b64_digit (a / 4); b64_digit (a mod 4 * 16 + b / 16);
       b64_digit (b mod 16 * 4); pad]%N
  | a :: b :: c :: rest =>
      ([b64_digit (a / 4); b64_digit (a mod 4 * 16 + b / 16);
        b64_digit (b mod 16 * 4 + c / 64); b64_digit (c mod 64)]
       ++ b64_groups rest)%N
  end.

(** [btoa] throws [InvalidCharacterError] on a code unit above 255. *)
Definition btoa (s : jsstring) : Result jsstring :=
  if forallb (fun c => c <? 256)%N s then Ok (b64_groups s)
  else Throw "InvalidCharacterError".

(** [new TextEncoder().encode(s)]: the UTF-8 bytes of [s]; a surrogate
    without its partner is encoded as U+FFFD. *)
Definition utf8_of_code_point (c : N) : list ascii :=
  map ascii_of_N
    (if c <? 128 then [c]
     else if c <? 2048 then [192 + c / 64; 128 + c mod 64]
     else if c <? 65536 then [224 + c / 4096; 128 + c / 64 mod 64; 128 + c mod 64]
     else [240 + c / 262144; 128 + c / 4096 mod 64;
           128 + c / 64 mod 64; 128 + c mod 64])%N.

Fixpoint TextEncoder_encode (s : jsstring) : list ascii :=
  match s with
  | [] => []
  | c :: rest =>
      if is_high_surrogate c then
        match rest with
        | d :: rest' =>
            if is_low_surrogate d
            then utf8_of_code_point
                   (65536 + (c - 55296) * 1024 + (d - 56320))%N
                 ++ TextEncoder_encode rest'
            else utf8_of_code_point 65533 ++ TextEncoder_encode rest
        | [] => utf8_of_code_point 65533
        end
      else if is_low_surrogate c
           then utf8_of_code_point 65533 ++ TextEncoder_encode rest
           else utf8_of_code_point c ++ TextEncoder_encode rest
  end.

(** [String.prototype.replace] with a one-character global pattern. *)
Definition replace_all (from to : N) (s : jsstring) : jsstring :=
  map (fun c => if (c =? from)%N then to else c) s.

(** [s.replace(/c+$/, '')]. *)
Fixpoint strip_trailing (c : N) (s : jsstring) : jsstring :=
  match s with
  | [] => []
  | x :: rest =>
      match strip_trailing c rest with
      | [] => if (x =? c)%N then [] else [x]
      | kept => x :: kept
      end
  end.

End JS.

Export JS.

Notation "'let!' x ':=' r 'in' k" :=
  (JS.bind r (fun x => k))
  (at level 10, x name, r at level 100, k at level 200).


(** ** The multi-tab reconciler ([meeting-tab-state-manager.js]) *)

Module MeetingTabStateManager.

Definition TAB_STATE_TIMEOUT : Z := 60000.
Definition CLEANUP_INTERVAL : Z := 5000.

(** The state object a content script reports. *)
Record MeetingState := {
  mic_enabled : bool;
  camera_enabled : bool;
  hand_raised : bool;
  in_meeting : bool;
  meeting_id : option jsstring;
  meeting_name : option jsstring;
  participant_count : Z
}.

(** Default state when no meetings are active. *)
Definition NULL_STATE : MeetingState := {|
  mic_enabled := false;
  camera_enabled := false;
  hand_raised := false;
  in_meeting := false;
  meeting_id := None;
  meeting_name := None;
  participant_count := 0
|}.

Definition string_or_null (s : option jsstring) : json :=
  match s with Some x => JStr x | None => JNull end.

Definition state_to_json (s : MeetingState) : json :=
  JObj [ (js "mic_enabled", JBool (mic_enabled s));
         (js "camera_enabled", JBool (camera_enabled s));
         (js "hand_raised", JBool (hand_raised s));
         (js "in_meeting", JBool (in_meeting s));
         (js "meeting_id", string_or_null (meeting_id s));
         (js "meeting_name", string_or_null (meeting_name s));
         (js "participant_count", JNum (participant_count s)) ].

(** [JSON.stringify(state)]. *)
Definition serialize (s : MeetingState) : jsstring :=
  JSON_stringify (state_to_json s).
#[global] Arguments serialize : simpl never.

Record TabEntry := {
  tabId : N;
  state : MeetingState;
  last_updated : Z
}.

(** The value kept under [STORAGE_KEY]. *)
Record StorageData := {
  tabStates : gmap N TabEntry;
  activeMeetingTabId : option N
}.

(** The part of the world the manager acts on: the stored value (absent
    until the first write) and the 'state-changed' events emitted so far,
    oldest first. *)
Record World := {
  storage : option StorageData;
  emitted : list MeetingState
}.

Definition initial_world : World := {| storage := None; emitted := [] |}.

(** [options.timeout || TAB_STATE_TIMEOUT]: an absent or zero option
    falls back to the default. *)
Definition or_default (option : option Z) (default : Z) : Z :=
  match option with
  | Some v => if decide (v = 0) then default else v
  | None => default
  end.

Record Manager := {
  timeout : Z;
  cleanupInterval : Z
}.

Definition constructor (options_timeout options_cleanupInterval : option Z) : Manager :=
  {| timeout := or_default options_timeout TAB_STATE_TIMEOUT;
     cleanupInterval := or_default options_cleanupInterval CLEANUP_INTERVAL |}.

(** [Object.keys] of an object keyed by tab identifiers. *)
Definition Object_keys {V} (o : gmap N V) : list N :=
  merge_sort N.le (elements (dom o)).

Definition _readStorage (w : World) : StorageData :=
  match storage w with
  | Some data => data
  | None => {| tabStates := ∅; activeMeetingTabId := None |}
  end.

Definition _writeStorage (data : StorageData) (w : World) : World :=
  {| storage := Some data; emitted := emitted w |}.

Definition _emit (data : MeetingState) (w : World) : World :=
  {| storage := storage w; emitted := emitted w ++ [data] |}.

Fixpoint find_loop (tabStates : gmap N TabEntry) (keys : list N) : option N :=
  match keys with
  | [] => None
  | tabId :: rest =>
      match tabStates !! tabId with
      | Some entry =>
          if in_meeting (state entry) then Some tabId
          else find_loop tabStates rest
      | None => find_loop tabStates rest
      end
  end.

(** Find first tab that is in a meeting. *)
Definition _findActiveMeetingTabIdFromStates (tabStates : gmap N TabEntry) : option N :=
  find_loop tabStates (Object_keys tabStates).

Definition getCurrentState (w : World) : MeetingState :=
  let storageData := _readStorage w in
  match activeMeetingTabId storageData with
  | Some active =>
      if decide (active = 0%N) then NULL_STATE
      else match tabStates storageData !! active with
           | Some entry => state entry
           | None => NULL_STATE
           end
  | None => NULL_STATE
  end.

Definition getActiveMeetingTabId (w : World) : option N :=
  activeMeetingTabId (_readStorage w).

(** The body of the loop of [_cleanStaleStates]; the accumulator is the
    pair of [storageData.tabStates] and [deleted]. *)
Definition clean_step (m : Manager) (now : Z)
    (acc : gmap N TabEntry * bool) (tabId : N) : gmap N TabEntry * bool :=
  match acc.1 !! tabId with
  | Some entry =>
      if decide (now - last_updated entry > timeout m)
      then (delete tabId acc.1, true)
      else acc
  | None => acc
  end.

Definition clean_loop (m : Manager) (now : Z) (tabStates : gmap N TabEntry)
  : gmap N TabEntry * bool :=
  foldl (clean_step m now) (tabStates, false) (Object_keys tabStates).

Definition _cleanStaleStates (m : Manager) (now : Z) (w : World) : World :=
  let storageData := _readStorage w in
  let '(tabStates', deleted) := clean_loop m now (tabStates storageData) in
  if deleted then
    let previousState := getCurrentState w in
    let storageData' :=
      {| tabStates := tabStates';
         activeMeetingTabId := _findActiveMeetingTabIdFromStates tabStates' |} in
    let w1 := _writeStorage storageData' w in
    let newState := getCurrentState w1 in
    if decide (serialize previousState ≠ serialize newState)
    then _emit newState w1
    else w1
  else w.

Definition init (m : Manager) (now : Z) (w : World) : World :=
  _cleanStaleStates m now w.

(** The part of [updateTabState] after the initial sweep; [now] is the
    value of the [Date.now()] stored in [last_updated]. *)
Definition update_after_clean (now : Z) (tab : N) (st : MeetingState) (w : World) : World :=
  let previousState := getCurrentState w in
  let storageData := _readStorage w in
  let tabStates' :=
    <[ tab := {| tabId := tab; state := st; last_updated := now |} ]>
      (tabStates storageData) in
  let storageData' :=
    {| tabStates := tabStates';
       activeMeetingTabId := _findActiveMeetingTabIdFromStates tabStates' |} in
  let w1 := _writeStorage storageData' w in
  let newState := getCurrentState w1 in
  if decide (serialize previousState ≠ serialize newState)
  then _emit newState w1
  else w1.

Definition updateTabState (m : Manager) (now_clean now_update : Z)
    (tab : N) (st : MeetingState) (w : World) : World :=
  update_after_clean now_update tab st (_cleanStaleStates m now_clean w).

(** The calls the background script and the cleanup timer make. *)
Inductive Call :=
| CallInit (now : Z)
| CallUpdateTabState (now_clean now_update : Z) (tab : N) (st : MeetingState)
| TimerSweep (now : Z).

Definition step (m : Manager) (w : World) (c : Call) : World :=
  match c with
  | CallInit now => init m now w
  | CallUpdateTabState now_clean now_update tab st =>
      updateTabState m now_clean now_update tab st w
  | TimerSweep now => _cleanStaleStates m now w
  end.

Definition run (m : Manager) (calls : list Call) : World :=
  foldl (step m) initial_world calls.

(** *** Predicates used to state the properties *)

(** Tab [k] has a stored report that is in a meeting. *)
Definition reports_meeting (tabStates : gmap N TabEntry) (k : N) : Prop :=
  ∃ e, tabStates !! k = Some e ∧ in_meeting (state e) = true.

(** The stored active tab is the one the search finds in the stored
    mapping. *)
Definition consistent (data : StorageData) : Prop :=
  activeMeetingTabId data = _findActiveMeetingTabIdFromStates (tabStates data).

(** A manager constructed over what an earlier service worker left: the
    stored value persists, the listeners are new and have been told
    nothing. *)
Definition restarted (w : World) : World :=
  {| storage := storage w; emitted := [] |}.

(** The calls made to a manager since it was constructed over [w]. *)
Definition run_from (m : Manager) (w : World) (calls : list Call) : World :=
  foldl (step m) w calls.

(** What a listener holds that knew the state [known] when it was
    registered and keeps the last 'state-changed' event since. *)
Definition last_reported (known : MeetingState) (events : list MeetingState)
  : MeetingState :=
  default known (last events).

(** No two events in a row serialize alike. *)
Definition no_repeats (events : list MeetingState) : Prop :=
  ∀ i a b, events !! i = Some a → events !! S i = Some b →
           serialize a ≠ serialize b.

(** The events emitted so far tell the state to a listener that knew
    [known] at the start. *)
Definition in_sync (known : MeetingState) (w : World) : Prop :=
  serialize (getCurrentState w) = serialize (last_reported known (emitted w)) ∧
  no_repeats (known :: emitted w).

End MeetingTabStateManager.


(** ** The reconciler as the design document words it *)

Module DesignDocument.
Import MeetingTabStateManager.

(** One entry of the mapping instance_id -> (last_report, last_seen_at). *)
Record Report := {
  instance_id : N;
  last_report : MeetingState;
  last_seen_at : Z
}.

(** "A report is live only if now - last_seen_at < staleness_timeout". *)
Definition live (now staleness_timeout : Z) (r : Report) : bool :=
  bool_decide (now - last_seen_at r < staleness_timeout).

(** The mapping in arrival order: the report of a known instance replaces
    its entry where it stands, a new instance joins at the end. *)
Fixpoint record (r : Report) (mapping : list Report) : list Report :=
  match mapping with
  | [] => [r]
  | r' :: rest =>
      if decide (instance_id r' = instance_id r) then r :: rest
      else r' :: record r rest
  end.

(** "The first instance (by arrival order among currently-live
    instances) whose last report indicates an active session". *)
Definition authoritative (now staleness_timeout : Z) (mapping : list Report)
  : option N :=
  instance_id <$>
    List.find (fun r => live now staleness_timeout r && in_meeting (last_report r))
      mapping.

End DesignDocument.

(** ** Sample reports *)

Module Samples.
Import MeetingTabStateManager.

Definition standup : MeetingState := {|
  mic_enabled := true; camera_enabled := false; hand_raised := false;
  in_meeting := true;
  meeting_id := Some (js "abc-defg-hij");
  meeting_name := Some (js "Standup");
  participant_count := 3
|}.

Definition retro : MeetingState := {|
  mic_enabled := false; camera_enabled := true; hand_raised := false;
  in_meeting := true;
  meeting_id := Some (js "xyz-uvwx-rst");
  meeting_name := Some (js "Retro");
  participant_count := 5
|}.

Definition manager : Manager := constructor None None.

(** Tab 7 reports first, the older tab 3 joins a meeting a second later. *)
Definition two_tabs : list Call :=
  [ CallInit 0;
    CallUpdateTabState 1000 1000 7%N standup;
    CallUpdateTabState 2000 2000 3%N retro ].

(** One tab, reported at time 0. *)
Definition one_tab : list Call :=
  [ CallInit 0; CallUpdateTabState 0 0 5%N standup ].

End Samples.

(** ** Signing ([auth-manager.js]) *)

(** The part of WebCrypto the extension uses.  ECDSA draws a fresh nonce
    for every signature, so the entropy consumed is an argument of
    [subtle_sign]. *)
Class WebCrypto := {
  CryptoKey : Type;
  Entropy : Type;
  subtle_sign : CryptoKey → Entropy → list ascii → list ascii
}.

Module AuthManager.
Section WithCrypto.
Context `{WebCrypto}.

Record t := {
  privateKey : option CryptoKey;
  publicKeyJWK : option json;
  instanceId : option jsstring
}.

Definition constructor : t :=
  {| privateKey := None; publicKeyJWK := None; instanceId := None |}.

(** What persists across restarts: [chrome.storage.local] and the key
    that [_loadPrivateKeyFromIndexedDB] resolves to. *)
Record KeyStore := {
  instance_id : option jsstring;
  public_key_jwk : option json;
  private_key : option CryptoKey
}.

(** What the platform generates on request. *)
Record Generated := {
  randomUUID : jsstring;
  generated_privateKey : CryptoKey;
  generated_publicKeyJWK : json
}.

Definition _getOrCreateInstanceId (g : Generated) (store : KeyStore)
  : jsstring * KeyStore :=
  let fresh :=
    (randomUUID g,
     {| instance_id := Some (randomUUID g);
        public_key_jwk := public_key_jwk store;
        private_key := private_key store |}) in
  match instance_id store with
  | Some id => if decide (id = []) then fresh else (id, store)
  | None => fresh
  end.

Definition _generateKeyPair (g : Generated) (store : KeyStore) (am : t)
  : t * KeyStore :=
  ({| privateKey := Some (generated_privateKey g);
      publicKeyJWK := Some (generated_publicKeyJWK g);
      instanceId := instanceId am |},
   {| instance_id := instance_id store;
      public_key_jwk := Some (generated_publicKeyJWK g);
      private_key := Some (generated_privateKey g) |}).

Definition _loadKeyPair (store : KeyStore) (am : t)
  : t * option (CryptoKey * json) :=
  match public_key_jwk store with
  | None => (am, None)
  | Some jwk =>
      let am' := {| privateKey := private_key store;
                    publicKeyJWK := Some jwk;
                    instanceId := instanceId am |} in
      match private_key store with
      | None => (am', None)
      | Some key => (am', Some (key, jwk))
      end
  end.

Definition initialize (g : Generated) (store : KeyStore) (am : t) : t * KeyStore :=
  let '(id, store1) := _getOrCreateInstanceId g store in
  let am1 := {| privateKey := privateKey am;
                publicKeyJWK := publicKeyJWK am;
                instanceId := Some id |} in
  let '(am2, keyPair) := _loadKeyPair store1 am1 in
  match keyPair with
  | Some (key, jwk) =>
      ({| privateKey := Some key; publicKeyJWK := Some jwk;
          instanceId := instanceId am2 |}, store1)
  | None => _generateKeyPair g store1 am2
  end.

(** The instance id [_getOrCreateInstanceId] returns. *)
Definition settled_id (g : Generated) (store : KeyStore) : jsstring :=
  match instance_id store with
  | Some id => if decide (id = []) then randomUUID g else id
  | None => randomUUID g
  end.

(** The IndexedDB database 'StreamControllerAuth', in whose object
    store 'keys' the private key of a [KeyStore] lives: not created yet,
    created without the object store, or created with it. *)
Inductive Database := NoDatabase | WithoutKeys | WithKeys.

(** A call returns, or its promise never settles; either way it leaves a
    state behind. *)
Inductive Outcome (A : Type) :=
| Settled (a : A)
| NeverSettles (a : A).
#[global] Arguments Settled {A} a.
#[global] Arguments NeverSettles {A} a.

(** [_deletePrivateKeyFromIndexedDB] opens the database with no
    [onupgradeneeded] handler: a database that does not exist yet is created
    without the object store 'keys'. *)
Definition _deletePrivateKeyFromIndexedDB (db : Database) (store : KeyStore)
  : Database * KeyStore :=
  match db with
  | NoDatabase | WithoutKeys => (WithoutKeys, store)
  | WithKeys =>
      (WithKeys,
       {| instance_id := instance_id store;
          public_key_jwk := public_key_jwk store;
          private_key := None |})
  end.

Definition _deleteKeyPair (db : Database) (store : KeyStore) : Database * KeyStore :=
  _deletePrivateKeyFromIndexedDB db
    {| instance_id := instance_id store;
       public_key_jwk := None;
       private_key := private_key store |}.

(** [_savePrivateKeyToIndexedDB] creates a missing database with the
    object store; in a database without the object store
    [db.transaction(['keys'], ..)] throws inside the [onsuccess] callback,
    and the promise is neither resolved nor rejected. *)
Definition _savePrivateKeyToIndexedDB (key : CryptoKey) (db : Database)
    (store : KeyStore) : Outcome (Database * KeyStore) :=
  match db with
  | WithoutKeys => NeverSettles (WithoutKeys, store)
  | NoDatabase | WithKeys =>
      Settled (WithKeys,
               {| instance_id := instance_id store;
                  public_key_jwk := public_key_jwk store;
                  private_key := Some key |})
  end.

(** [_generateKeyPair] with the database in view: the pair is set in
    memory, [_saveKeyPair] stores the public key and then saves the private
    key. *)
Definition _generateKeyPair_in (g : Generated) (db : Database) (store : KeyStore)
    (am : t) : Outcome (t * KeyStore * Database) :=
  let am' := {| privateKey := Some (generated_privateKey g);
                publicKeyJWK := Some (generated_publicKeyJWK g);
                instanceId := instanceId am |} in
  let store' := {| instance_id := instance_id store;
                   public_key_jwk := Some (generated_publicKeyJWK g);
                   private_key := private_key store |} in
  match _savePrivateKeyToIndexedDB (generated_privateKey g) db store' with
  | Settled (db', store'') => Settled (am', store'', db')
  | NeverSettles (db', store'') => NeverSettles (am', store'', db')
  end.

Definition reset (g : Generated) (db : Database) (store : KeyStore) (am : t)
  : Outcome (t * KeyStore * Database) :=
  let '(db', store') := _deleteKeyPair db store in
  _generateKeyPair_in g db' store' am.

(** [data] is a string or an [ArrayBuffer]. *)
Inductive EncodeInput :=
| OfString (s : jsstring)
| OfArrayBuffer (bytes : list ascii).

Definition _base64UrlEncode (data : EncodeInput) : Result jsstring :=
  let! base64 :=
    match data with
    | OfArrayBuffer bytes => btoa (map N_of_ascii bytes)
    | OfString s => btoa s
    end in
  Ok (strip_trailing 61 (replace_all 47 95 (replace_all 43 45 base64)))%N.

Definition header : json :=
  JObj [ (js "alg", JStr (js "ES256")); (js "typ", JStr (js "JWT")) ].

Definition string_or_null (s : option jsstring) : json :=
  match s with Some x => JStr x | None => JNull end.

(** [{...payload, iat: .., exp: .., instance_id: ..}]; [now_iat] and
    [now_exp] are the two readings of the clock, in that order. *)
Definition fullPayload (am : t) (payload : list (jsstring * json))
    (now_iat now_exp : Z) : list (jsstring * json) :=
  obj_set (js "instance_id") (string_or_null (instanceId am))
    (obj_set (js "exp") (JNum (now_exp / 1000 + 300))
       (obj_set (js "iat") (JNum (now_iat / 1000)) payload)).

Definition signatureInput (encodedHeader encodedPayload : jsstring) : jsstring :=
  encodedHeader ++ js "." ++ encodedPayload.

Definition signMessage (am : t) (payload : list (jsstring * json))
    (now_iat now_exp : Z) (entropy : Entropy) : Result jsstring :=
  match privateKey am with
  | None => Throw "No private key available"
  | Some key =>
      let full := fullPayload am payload now_iat now_exp in
      let! encodedHeader := _base64UrlEncode (OfString (JSON_stringify header)) in
      let! encodedPayload := _base64UrlEncode (OfString (JSON_stringify (JObj full))) in
      let data := TextEncoder_encode (signatureInput encodedHeader encodedPayload) in
      let signature := subtle_sign key entropy data in
      let! encodedSignature := _base64UrlEncode (OfArrayBuffer signature) in
      Ok (signatureInput encodedHeader encodedPayload ++ js "." ++ encodedSignature)
  end.

Definition getPublicKey (am : t) : option json := publicKeyJWK am.
Definition getInstanceId (am : t) : option jsstring := instanceId am.

End WithCrypto.
End AuthManager.

(** ** The alphabet of the token segments *)

Module Base64Url.

(** The characters [_base64UrlEncode] can produce. *)
Definition alphabet : jsstring :=
  js "ABCDEFGHIJKLMNOPQRSTUVWXYZabcdefghijklmnopqrstuvwxyz0123456789-_".

Definition in_alphabet (c : N) : Prop := c ∈ alphabet.

(** The two replacements of [_base64UrlEncode] on one character. *)
Definition url_char (c : N) : N :=
  (if (if c =? 43 then 45 else c) =? 47 then 95 else if c =? 43 then 45 else c)%N.

(** The digit of value [n] after the two replacements. *)
Definition url_digit (n : N) : N :=
  nth (N.to_nat n) alphabet 0%N.

(** The value of a character of the alphabet. *)
Definition digit_value (c : N) : N :=
  match list_find (λ x, x = c) alphabet with
  | Some (i, _) => N.of_nat i
  | None => 0
  end%N.

(** The encoding without its padding: what is left after
    [.replace(/=+$/, '')]. *)
Fixpoint unpadded (bs : list N) : jsstring :=
  match bs with
  | [] => []
  | [a] => [url_digit (a / 4); url_digit (a mod 4 * 16)]%N
  | [a; b] =>
      [url_digit (a / 4); url_digit (a mod 4 * 16 + b / 16);
       url_digit (b mod 16 * 4)]%N
  | a :: b :: c :: rest =>
      ([url_digit (a / 4); url_digit (a mod 4 * 16 + b / 16);
        url_digit (b mod 16 * 4 + c / 64); url_digit (c mod 64)]
       ++ unpadded rest)%N
  end.

(** Reading the bytes back from an unpadded encoding. *)
Fixpoint decode (s : jsstring) : list N :=
  match s with
  | d1 :: d2 :: d3 :: d4 :: rest =>
      ([digit_value d1 * 4 + digit_value d2 / 16;
        digit_value d2 mod 16 * 16 + digit_value d3 / 4;
        digit_value d3 mod 4 * 64 + digit_value d4] ++ decode rest)%N
  | [d1; d2; d3] =>
      [digit_value d1 * 4 + digit_value d2 / 16;
       digit_value d2 mod 16 * 16 + digit_value d3 / 4]%N
  | [d1; d2] => [digit_value d1 * 4 + digit_value d2 / 16]%N
  | _ => []
  end.

End Base64Url.

(** ** The objects of the session client and the platform they run on *)

Module Runtime.

Inductive ReadyState := CONNECTING | OPEN | CLOSING | CLOSED.
Inductive PairingState := unauthorized | pending | authorized.
Inductive TimerKind := HeartbeatInterval | ReconnectTimeout | ConnectTimeout.
Inductive LogLevel := LOG | WARN | ERROR.

#[global] Instance ReadyState_eq_dec : EqDecision ReadyState.
Proof. solve_decision. Defined.
#[global] Instance PairingState_eq_dec : EqDecision PairingState.
Proof. solve_decision. Defined.
#[global] Instance TimerKind_eq_dec : EqDecision TimerKind.
Proof. solve_decision. Defined.

(** Events of the [PairingManager]. *)
Inductive PairingEvent := PairingAuthorized | PairingPending | PairingDenied | PairingTimeout.

(** The values passed with an 'error' event. *)
Inductive ErrorValue :=
| PairingDeniedByUser
| PairingRequestTimedOut
| ServerError (message : option json)
| Thrown (message : string)
| SocketError.

(** Events the client emits to the handlers registered with [on]. *)
Inductive ClientEvent :=
| Connected
| Command (action data : option json)
| PairingRequired
| Disconnected (reason : jsstring)
| Error (e : ErrorValue).

Section WithCrypto.
Context `{WebCrypto}.

(** The three manager objects, the heartbeat timer of the client, and
    the platform: active timers by handle (handles are positive
    integers, handed out in increasing order), the frames passed to
    [WebSocket.send], the events emitted and the console. *)
Record World := {
  extensionId : jsstring;
  auth : AuthManager.t;
  store : AuthManager.KeyStore;
  pairing_state : PairingState;
  ws : option ReadyState;
  shouldReconnect : bool;
  reconnectTimer : option positive;
  heartbeatTimer : option positive;
  heartbeatInterval : Z;
  timers : gmap positive TimerKind;
  next_timer : positive;
  transport : list jsstring;
  events : list ClientEvent;
  console : list (LogLevel * string)
}.

(** What a call reads from its environment: the clock (twice, for a
    signature), the signing entropy, the metadata of the browser and the
    material for a new identity. *)
Record Oracle := {
  now_iat : Z;
  now_exp : Z;
  entropy : Entropy;
  metadata : json;
  generated : AuthManager.Generated
}.

(** Computations that update the world and may throw. *)
Definition M (A : Type) : Type := World → Result A * World.

Definition ret {A} (a : A) : M A := fun w => (Ok a, w).
Definition throw {A} (message : string) : M A := fun w => (Throw message, w).
Definition bindM {A B} (m : M A) (k : A → M B) : M B :=
  fun w => match m w with
           | (Ok a, w') => k a w'
           | (Throw message, w') => (Throw message, w')
           end.
Definition read {A} (f : World → A) : M A := fun w => (Ok (f w), w).
Definition update (f : World → World) : M unit := fun w => (Ok tt, f w).
Definition lift {A} (r : Result A) : M A := fun w => (r, w).

(** [try { m } catch (error) { handler(error) }]. *)
Definition try_catch {A} (m : M A) (handler : string → M A) : M A :=
  fun w => match m w with
           | (Ok a, w') => (Ok a, w')
           | (Throw message, w') => handler message w'
           end.

(** An [async] handler that nobody awaits: a rejection is lost. *)
Definition detached (m : M unit) : M unit := try_catch m (fun _ => ret tt).

Definition exec (m : M unit) (w : World) : World := (m w).2.

(** *** Field updates *)

Definition set_auth (a : AuthManager.t) (s : AuthManager.KeyStore) (w : World) : World :=
  {| extensionId := extensionId w; auth := a; store := s;
     pairing_state := pairing_state w; ws := ws w;
     shouldReconnect := shouldReconnect w; reconnectTimer := reconnectTimer w;
     heartbeatTimer := heartbeatTimer w; heartbeatInterval := heartbeatInterval w;
     timers := timers w; next_timer := next_timer w;
     transport := transport w; events := events w; console := console w |}.

Definition set_pairing_state (p : PairingState) (w : World) : World :=
  {| extensionId := extensionId w; auth := auth w; store := store w;
     pairing_state := p; ws := ws w;
     shouldReconnect := shouldReconnect w; reconnectTimer := reconnectTimer w;
     heartbeatTimer := heartbeatTimer w; heartbeatInterval := heartbeatInterval w;
     timers := timers w; next_timer := next_timer w;
     transport := transport w; events := events w; console := console w |}.

Definition set_ws (s : option ReadyState) (w : World) : World :=
  {| extensionId := extensionId w; auth := auth w; store := store w;
     pairing_state := pairing_state w; ws := s;
     shouldReconnect := shouldReconnect w; reconnectTimer := reconnectTimer w;
     heartbeatTimer := heartbeatTimer w; heartbeatInterval := heartbeatInterval w;
     timers := timers w; next_timer := next_timer w;
     transport := transport w; events := events w; console := console w |}.

Definition set_shouldReconnect (b : bool) (w : World) : World :=
  {| extensionId := extensionId w; auth := auth w; store := store w;
     pairing_state := pairing_state w; ws := ws w;
     shouldReconnect := b; reconnectTimer := reconnectTimer w;
     heartbeatTimer := heartbeatTimer w; heartbeatInterval := heartbeatInterval w;
     timers := timers w; next_timer := next_timer w;
     transport := transport w; events := events w; console := console w |}.

Definition set_reconnectTimer (t : option positive) (w : World) : World :=
  {| extensionId := extensionId w; auth := auth w; store := store w;
     pairing_state := pairing_state w; ws := ws w;
     shouldReconnect := shouldReconnect w; reconnectTimer := t;
     heartbeatTimer := heartbeatTimer w; heartbeatInterval := heartbeatInterval w;
     timers := timers w; next_timer := next_timer w;
     transport := transport w; events := events w; console := console w |}.

Definition set_heartbeatTimer (t : option positive) (w : World) : World :=
  {| extensionId := extensionId w; auth := auth w; store := store w;
     pairing_state := pairing_state w; ws := ws w;
     shouldReconnect := shouldReconnect w; reconnectTimer := reconnectTimer w;
     heartbeatTimer := t; heartbeatInterval := heartbeatInterval w;
     timers := timers w; next_timer := next_timer w;
     transport := transport w; events := events w; console := console w |}.

Definition set_timers (ts : gmap positive TimerKind) (next : positive) (w : World) : World :=
  {| extensionId := extensionId w; auth := auth w; store := store w;
     pairing_state := pairing_state w; ws := ws w;
     shouldReconnect := shouldReconnect w; reconnectTimer := reconnectTimer w;
     heartbeatTimer := heartbeatTimer w; heartbeatInterval := heartbeatInterval w;
     timers := ts; next_timer := next;
     transport := transport w; events := events w; console := console w |}.

Definition set_transport (frames : list jsstring) (w : World) : World :=
  {| extensionId := extensionId w; auth := auth w; store := store w;
     pairing_state := pairing_state w; ws := ws w;
     shouldReconnect := shouldReconnect w; reconnectTimer := reconnectTimer w;
     heartbeatTimer := heartbeatTimer w; heartbeatInterval := heartbeatInterval w;
     timers := timers w; next_timer := next_timer w;
     transport := frames; events := events w; console := console w |}.

Definition set_events (evs : list ClientEvent) (w : World) : World :=
  {| extensionId := extensionId w; auth := auth w; store := store w;
     pairing_state := pairing_state w; ws := ws w;
     shouldReconnect := shouldReconnect w; reconnectTimer := reconnectTimer w;
     heartbeatTimer := heartbeatTimer w; heartbeatInterval := heartbeatInterval w;
     timers := timers w; next_timer := next_timer w;
     transport := transport w; events := evs; console := console w |}.

Definition set_console (lines : list (LogLevel * string)) (w : World) : World :=
  {| extensionId := extensionId w; auth := auth w; store := store w;
     pairing_state := pairing_state w; ws := ws w;
     shouldReconnect := shouldReconnect w; reconnectTimer := reconnectTimer w;
     heartbeatTimer := heartbeatTimer w; heartbeatInterval := heartbeatInterval w;
     timers := timers w; next_timer := next_timer w;
     transport := transport w; events := events w; console := lines |}.

(** *** Platform calls *)

Definition console_write (level : LogLevel) (text : string) : M unit :=
  update (fun w => set_console (console w ++ [(level, text)]) w).

(** [setInterval] and [setTimeout]: a fresh handle. *)
Definition set_timer (kind : TimerKind) : M positive :=
  fun w => (Ok (next_timer w),
            set_timers (<[next_timer w := kind]> (timers w))
                       (Pos.succ (next_timer w)) w).

(** [clearInterval] and [clearTimeout]. *)
Definition clear_timer (handle : positive) : M unit :=
  update (fun w => set_timers (delete handle (timers w)) (next_timer w) w).

(** [socket.send(frame)] on the browser's socket. *)
Definition socket_send (frame : jsstring) : M unit :=
  update (fun w => set_transport (transport w ++ [frame]) w).

(** [socket.close()]. *)
Definition socket_close (rs : ReadyState) : ReadyState :=
  match rs with
  | CONNECTING | OPEN => CLOSING
  | CLOSING => CLOSING
  | CLOSED => CLOSED
  end.

End WithCrypto.
End Runtime.

Export Runtime.

Notation "'let*' x ':=' m 'in' k" :=
  (Runtime.bindM m (fun x => k))
  (at level 10, x name, m at level 100, k at level 200).
Notation "m1 '>>' m2" :=
  (Runtime.bindM m1 (fun _ => m2))
  (at level 100, m2 at level 200, right associativity).

(** ** [websocket-manager.js] *)

Module WebSocketManager.
Section WithCrypto.
Context `{WebCrypto}.

(** The handlers the client registers with [on]. *)
Record Handlers := {
  on_connected : M unit;
  on_disconnected : jsstring → M unit;
  on_message : list (jsstring * json) → M unit;
  on_error : M unit
}.

Definition connect : M unit :=
  console_write LOG "[WebSocketManager] Connecting to" >>
  update (set_ws (Some CONNECTING)) >>
  let* _ := set_timer ConnectTimeout in
  ret tt.

Definition send (message : json) : M unit :=
  let* socket := read ws in
  match socket with
  | Some OPEN => socket_send (JSON_stringify message)
  | _ => throw "WebSocket not connected"
  end.

Definition disconnect : M unit :=
  console_write LOG "[WebSocketManager] Disconnecting" >>
  update (set_shouldReconnect false) >>
  (let* timer := read reconnectTimer in
   match timer with
   | Some handle => clear_timer handle >> update (set_reconnectTimer None)
   | None => ret tt
   end) >>
  let* socket := read ws in
  match socket with
  | Some _ => update (set_ws None)
  | None => ret tt
  end.

Definition isConnected : M bool :=
  let* socket := read ws in
  ret (bool_decide (socket = Some OPEN)).

Definition _scheduleReconnect : M unit :=
  let* timer := read reconnectTimer in
  match timer with
  | Some _ => ret tt
  | None =>
      console_write LOG "[WebSocketManager] Reconnecting in" >>
      let* handle := set_timer ReconnectTimeout in
      update (set_reconnectTimer (Some handle))
  end.

(** [_emit]: a handler that throws is logged. *)
Definition _emit (handler : M unit) : M unit :=
  try_catch handler
    (fun _ => console_write ERROR "[WebSocketManager] Error in handler:").

(** The socket's [onopen], [onmessage], [onerror] and [onclose]. *)
Definition onopen (h : Handlers) : M unit :=
  console_write LOG "[WebSocketManager] Connected" >>
  _emit (on_connected h).

(** [parsed] is the result of [JSON.parse(event.data)], absent when it
    throws; the frames of the host parse to objects. *)
Definition onmessage (h : Handlers) (parsed : option (list (jsstring * json))) : M unit :=
  match parsed with
  | Some message => _emit (on_message h message)
  | None => console_write ERROR "[WebSocketManager] Error parsing message:"
  end.

Definition onerror (h : Handlers) : M unit :=
  console_write ERROR "[WebSocketManager] WebSocket error:" >>
  _emit (on_error h).

Definition onclose (h : Handlers) (reason : jsstring) : M unit :=
  console_write LOG "[WebSocketManager] Connection closed:" >>
  _emit (on_disconnected h
           (if decide (reason = []) then js "connection closed" else reason)) >>
  let* again := read shouldReconnect in
  if again then _scheduleReconnect else ret tt.

(** The callback of the reconnect timer. *)
Definition reconnect_callback : M unit :=
  update (set_reconnectTimer None) >>
  console_write LOG "[WebSocketManager] Attempting to reconnect..." >>
  connect.

(** The callback of the connection timeout. *)
Definition connect_timeout_callback : M unit :=
  let* socket := read ws in
  match socket with
  | None => throw "TypeError"
  | Some OPEN => ret tt
  | Some rs => update (set_ws (Some (socket_close rs)))
  end.

Definition enableReconnect : M unit := update (set_shouldReconnect true).

Definition disableReconnect : M unit :=
  update (set_shouldReconnect false) >>
  let* timer := read reconnectTimer in
  match timer with
  | Some handle => clear_timer handle >> update (set_reconnectTimer None)
  | None => ret tt
  end.

End WithCrypto.
End WebSocketManager.

(** ** [pairing-manager.js] *)

Module PairingManager.
Section WithCrypto.
Context `{WebCrypto}.

Definition json_or_null (v : option json) : json :=
  match v with Some x => x | None => JNull end.

Definition handshake (w : World) (meta : json) : json :=
  JObj [ (js "type", JStr (js "handshake"));
         (js "extension_id", JStr (extensionId w));
         (js "instance_id",
           AuthManager.string_or_null (AuthManager.getInstanceId (auth w)));
         (js "public_key", json_or_null (AuthManager.getPublicKey (auth w)));
         (js "metadata", meta) ].

Definition authenticate (o : Oracle) : M unit :=
  console_write LOG "[PairingManager] Starting authentication" >>
  let* message := read (fun w => handshake w (metadata o)) in
  WebSocketManager.send message >>
  update (set_pairing_state pending) >>
  console_write LOG "[PairingManager] Pairing request sent".

(** [_emit]: a handler that throws is logged. *)
Definition _emit (handlers : PairingEvent → M unit) (event : PairingEvent) : M unit :=
  try_catch (handlers event)
    (fun _ => console_write ERROR "[PairingManager] Error in handler:").

Definition handleMessage (handlers : PairingEvent → M unit)
    (message : list (jsstring * json)) : M unit :=
  match obj_get (js "type") message with
  | Some (JStr type) =>
      if decide (type = js "handshake_success") then
        console_write LOG "[PairingManager] Pairing approved!" >>
        update (set_pairing_state authorized) >>
        _emit handlers PairingAuthorized
      else if decide (type = js "handshake_pending") then
        console_write LOG "[PairingManager] Waiting for user approval..." >>
        update (set_pairing_state pending) >>
        _emit handlers PairingPending
      else if decide (type = js "handshake_denied") then
        console_write ERROR "[PairingManager] Pairing denied by user" >>
        update (set_pairing_state unauthorized) >>
        _emit handlers PairingDenied
      else if decide (type = js "handshake_timeout") then
        console_write ERROR "[PairingManager] Pairing request timed out" >>
        update (set_pairing_state unauthorized) >>
        _emit handlers PairingTimeout
      else ret tt
  | _ => ret tt
  end.

Definition isAuthorized : M bool :=
  let* state := read pairing_state in
  ret (bool_decide (state = authorized)).

Definition isPending : M bool :=
  let* state := read pairing_state in
  ret (bool_decide (state = pending)).

Definition markUnauthorized : M unit := update (set_pairing_state unauthorized).

Definition reset : M unit := update (set_pairing_state unauthorized).

End WithCrypto.
End PairingManager.

(** ** The session client ([StreamControllerClient]) *)

(** The object [getState] returns. *)
Module ClientState.
Record t := {
  connected : bool;
  authorized : bool;
  pairingPending : bool
}.
End ClientState.

Module StreamControllerClient.
Section WithCrypto.
Context `{WebCrypto}.

Definition constructor (extension_id : jsstring) (persisted : AuthManager.KeyStore)
    (first_handle : positive) : World :=
  {| extensionId := extension_id;
     auth := AuthManager.constructor;
     store := persisted;
     pairing_state := unauthorized;
     ws := None;
     shouldReconnect := true;
     reconnectTimer := None;
     heartbeatTimer := None;
     heartbeatInterval := 5000;
     timers := ∅;
     next_timer := first_handle;
     transport := [];
     events := [];
     console := [] |}.

Definition _emit (event : ClientEvent) : M unit :=
  update (fun w => set_events (events w ++ [event]) w).

(** The payloads the client signs: [{type: .., data: ..}]. *)
Record Payload := { type : jsstring; data : json }.

Definition payload_props (p : Payload) : list (jsstring * json) :=
  [ (js "type", JStr (type p)); (js "data", data p) ].

(** The object [_createSignedMessage] returns. *)
Definition signed_message (w : World) (payload : Payload) (token : jsstring) : json :=
  JObj [ (js "type", JStr (type payload));
         (js "extension_id", JStr (extensionId w));
         (js "instance_id",
           AuthManager.string_or_null (AuthManager.getInstanceId (auth w)));
         (js "data", data payload);
         (js "token", JStr token) ].

Definition _createSignedMessage (o : Oracle) (payload : Payload) : M json :=
  let* am := read auth in
  let* token :=
    lift (AuthManager.signMessage am (payload_props payload)
            (now_iat o) (now_exp o) (entropy o)) in
  read (fun w => signed_message w payload token).

Definition _startHeartbeat : M unit :=
  let* timer := read heartbeatTimer in
  match timer with
  | Some _ => ret tt
  | None =>
      console_write LOG "[StreamControllerClient] Starting heartbeat" >>
      let* handle := set_timer HeartbeatInterval in
      update (set_heartbeatTimer (Some handle))
  end.

(** The callback passed to [setInterval]. *)
Definition heartbeat_callback (o : Oracle) : M unit :=
  let* connected := WebSocketManager.isConnected in
  let* is_authorized := PairingManager.isAuthorized in
  if negb connected || negb is_authorized then ret tt
  else
    try_catch
      (let* message :=
         _createSignedMessage o {| type := js "heartbeat"; data := JObj [] |} in
       WebSocketManager.send message)
      (fun _ =>
         console_write ERROR "[StreamControllerClient] Error sending heartbeat:").

Definition _stopHeartbeat : M unit :=
  let* timer := read heartbeatTimer in
  match timer with
  | Some handle =>
      console_write LOG "[StreamControllerClient] Stopping heartbeat" >>
      clear_timer handle >>
      update (set_heartbeatTimer None)
  | None => ret tt
  end.

Definition connect (o : Oracle) : M unit :=
  console_write LOG "[StreamControllerClient] Connecting..." >>
  update (fun w =>
            let '(am, s) := AuthManager.initialize (generated o) (store w) (auth w) in
            set_auth am s w) >>
  WebSocketManager.connect.

Definition sendState (o : Oracle) (state : json) : M unit :=
  let* is_authorized := PairingManager.isAuthorized in
  if negb is_authorized then throw "Not authorized. Pairing required."
  else
    let* message := _createSignedMessage o {| type := js "state"; data := state |} in
    WebSocketManager.send message.

Definition disconnect : M unit :=
  console_write LOG "[StreamControllerClient] Disconnecting..." >>
  _stopHeartbeat >>
  WebSocketManager.disconnect.

Definition _onWebSocketConnected (o : Oracle) : M unit :=
  console_write LOG "[StreamControllerClient] WebSocket connected" >>
  try_catch (PairingManager.authenticate o)
    (fun message =>
       console_write ERROR "[StreamControllerClient] Error during authentication:" >>
       _emit (Error (Thrown message))).

Definition _onWebSocketDisconnected (reason : jsstring) : M unit :=
  console_write LOG "[StreamControllerClient] Disconnected:" >>
  _stopHeartbeat >>
  PairingManager.markUnauthorized >>
  _emit (Disconnected reason).

Definition _onPairingAuthorized : M unit :=
  console_write LOG "[StreamControllerClient] Authorized!" >>
  _startHeartbeat >>
  _emit Connected.

(** The handlers [_setupEventHandlers] registers with the pairing
    manager. *)
Definition pairing_handlers (event : PairingEvent) : M unit :=
  match event with
  | PairingAuthorized => _onPairingAuthorized
  | PairingPending => _emit PairingRequired
  | PairingDenied => _emit (Error PairingDeniedByUser)
  | PairingTimeout => _emit (Error PairingRequestTimedOut)
  end.

Definition _handleServerError (o : Oracle) (message : list (jsstring * json)) : M unit :=
  console_write ERROR "[StreamControllerClient] Server error:" >>
  if is_string (obj_get (js "error_code") message) (js "not_authorized")
     || is_string (obj_get (js "error_code") message) (js "invalid_signature")
  then
    console_write LOG "[StreamControllerClient] Re-authorization required" >>
    PairingManager.markUnauthorized >>
    _stopHeartbeat >>
    PairingManager.authenticate o
  else
    _emit (Error (ServerError (obj_get (js "message") message))).

Definition _handleServerMessage (o : Oracle) (message : list (jsstring * json)) : M unit :=
  match obj_get (js "type") message with
  | Some (JStr t) =>
      if decide (t = js "command") then
        _emit (Command (obj_get (js "action") message) (obj_get (js "data") message))
      else if decide (t = js "error") then
        _handleServerError o message
      else if decide (t = js "heartbeat_ack") then
        ret tt
      else if decide (t = js "handshake_success" ∨ t = js "handshake_pending" ∨
                      t = js "handshake_denied" ∨ t = js "handshake_timeout") then
        PairingManager.handleMessage pairing_handlers message
      else
        console_write WARN "[StreamControllerClient] Unknown message type:"
  | _ => console_write WARN "[StreamControllerClient] Unknown message type:"
  end.

(** The handlers [_setupEventHandlers] registers with the socket
    manager; the promise of an [async] method is not awaited. *)
Definition ws_handlers (o : Oracle) : WebSocketManager.Handlers :=
  {| WebSocketManager.on_connected := detached (_onWebSocketConnected o);
     WebSocketManager.on_disconnected := _onWebSocketDisconnected;
     WebSocketManager.on_message := fun msg => detached (_handleServerMessage o msg);
     WebSocketManager.on_error := _emit (Error SocketError) |}.

(** *** What can happen to a client *)

Inductive Input :=
| CallConnect
| CallSendState (state : json)
| CallDisconnect
| OnOpen
| OnMessage (parsed : option (list (jsstring * json)))
| OnError
| OnClose (reason : jsstring)
| ReadyStateChange (rs : ReadyState)
| TimerFired (handle : positive)
| HandleTakenElsewhere.

(** A timer that fires: a timeout leaves the table, an interval stays. *)
Definition timer_fired (o : Oracle) (handle : positive) : M unit :=
  let* table := read timers in
  match table !! handle with
  | Some HeartbeatInterval => heartbeat_callback o
  | Some ReconnectTimeout =>
      clear_timer handle >> WebSocketManager.reconnect_callback
  | Some ConnectTimeout =>
      clear_timer handle >> WebSocketManager.connect_timeout_callback
  | None => ret tt
  end.

Definition react (o : Oracle) (i : Input) : M unit :=
  match i with
  | CallConnect => connect o
  | CallSendState state => sendState o state
  | CallDisconnect => disconnect
  | OnOpen => WebSocketManager.onopen (ws_handlers o)
  | OnMessage parsed => WebSocketManager.onmessage (ws_handlers o) parsed
  | OnError => WebSocketManager.onerror (ws_handlers o)
  | OnClose reason => WebSocketManager.onclose (ws_handlers o) reason
  | ReadyStateChange rs =>
      update (fun w => match ws w with
                       | Some _ => set_ws (Some rs) w
                       | None => w
                       end)
  | TimerFired handle => timer_fired o handle
  | HandleTakenElsewhere =>
      update (fun w => set_timers (timers w) (Pos.succ (next_timer w)) w)
  end.

Definition step (w : World) (oi : Oracle * Input) : World :=
  exec (react oi.1 oi.2) w.

Definition run (w : World) (inputs : list (Oracle * Input)) : World :=
  foldl step w inputs.

(** *** Predicates used to state the properties *)

(** The active heartbeat timers. *)
Definition heartbeat_timers (w : World) : list positive :=
  (map_to_list (filter (λ kv, kv.2 = HeartbeatInterval) (timers w))).*1.

(** The 'command' events among the events emitted. *)
Definition is_command (e : ClientEvent) : bool :=
  match e with Command _ _ => true | _ => false end.

Definition commands (evs : list ClientEvent) : list ClientEvent :=
  List.filter is_command evs.

(** The input is the arrival of a frame of type 'command'. *)
Definition is_command_frame (i : Input) : bool :=
  match i with
  | OnMessage (Some message) =>
      is_string (obj_get (js "type") message) (js "command")
  | _ => false
  end.

(** The timers of the table are the ones the fields of the client and
    of the socket manager hold, and the handles in use are below the next
    one. *)
Definition owned (table : gmap positive TimerKind) (next : positive)
    (heartbeat reconnect : option positive) : Prop :=
  (∀ h, table !! h = Some HeartbeatInterval ↔ heartbeat = Some h) ∧
  (∀ h, reconnect = Some h → table !! h = Some ReconnectTimeout) ∧
  (∀ h, is_Some (table !! h) → (h < next)%positive).

Definition timers_owned (w : World) : Prop :=
  owned (timers w) (next_timer w) (heartbeatTimer w) (reconnectTimer w).

(** Two worlds with the same 'command' events emitted. *)
Definition same_commands (w w' : World) : Prop :=
  commands (events w') = commands (events w).

(** The step keeps [timers_owned]. *)
Definition keeps_timers_owned (w w' : World) : Prop :=
  timers_owned w → timers_owned w'.

(** *** The rest of the public interface *)

Definition getState : M ClientState.t :=
  let* c := WebSocketManager.isConnected in
  let* a := PairingManager.isAuthorized in
  let* p := PairingManager.isPending in
  ret {| ClientState.connected := c; ClientState.authorized := a;
         ClientState.pairingPending := p |}.


(** The active reconnect timers. *)
Definition reconnect_timers (w : World) : list positive :=
  (map_to_list (filter (λ kv, kv.2 = ReconnectTimeout) (timers w))).*1.

(** Besides [timers_owned], every reconnect timer of the table is the
    one the socket manager holds. *)
Definition reconnect_owned (w : World) : Prop :=
  timers_owned w ∧
  ∀ h, timers w !! h = Some ReconnectTimeout → reconnectTimer w = Some h.

Definition keeps_reconnect_owned (w w' : World) : Prop :=
  reconnect_owned w → reconnect_owned w'.

(** Automatic reconnection is off and no reconnect is scheduled. *)
Definition reconnect_off (w : World) : Prop :=
  shouldReconnect w = false ∧ reconnectTimer w = None ∧
  ∀ h, timers w !! h ≠ Some ReconnectTimeout.

Definition keeps_reconnect_off (w w' : World) : Prop :=
  reconnect_off w → reconnect_off w'.

(** The phase does not become 'authorized'. *)
Definition authorizes_nothing (w w' : World) : Prop :=
  pairing_state w' = authorized → pairing_state w = authorized.

End WithCrypto.
End StreamControllerClient.

(** ** Relations between the world before and after a computation *)

Module Relations.
Import StreamControllerClient.
Section WithCrypto.
Context `{WebCrypto}.

(** Every run of [m] takes a world to one related to it by [R]. *)
Definition respects (R : relation World) {A} (m : M A) : Prop :=
  ∀ w, R w (m w).2.

(** A relation that the updates outside the timers respect ... *)
Class Framed (R : relation World) := {
  framed_preorder :: PreOrder R;
  framed_console : ∀ lines w, R w (set_console lines w);
  framed_transport : ∀ frames w, R w (set_transport frames w);
  framed_pairing : ∀ p w, R w (set_pairing_state p w);
  framed_ws : ∀ s w, R w (set_ws s w);
  framed_auth : ∀ a s w, R w (set_auth a s w);
  framed_shouldReconnect : ∀ b w, R w (set_shouldReconnect b w);
  framed_event : ∀ e w, is_command e = false → R w (set_events (events w ++ [e]) w)
}.

(** ... and that the functions which set and clear timers respect too. *)
Class ClientRelation (R : relation World) := {
  client_framed :: Framed R;
  client_start : respects R _startHeartbeat;
  client_stop : respects R _stopHeartbeat;
  client_ws_disconnect : respects R WebSocketManager.disconnect;
  client_schedule : respects R WebSocketManager._scheduleReconnect;
  client_ws_connect : respects R WebSocketManager.connect;
  client_timer_fired : ∀ o handle, respects R (timer_fired o handle);
  client_handle_taken : ∀ w, R w (set_timers (timers w) (Pos.succ (next_timer w)) w)
}.

End WithCrypto.
End Relations.

Export Relations.

(** ** A sample client *)

Module ClientSamples.

(** A stand-in for WebCrypto: keys and entropy are numbers, a signature
    records the key, the entropy and the length of the data. *)
Definition toy_crypto : WebCrypto :=
  {| CryptoKey := N;
     Entropy := N;
     subtle_sign := fun key entropy data =>
       map ascii_of_N [key; entropy; N.of_nat (length data)] |}.

Definition empty_store : @AuthManager.KeyStore toy_crypto :=
  {| AuthManager.instance_id := None;
     AuthManager.public_key_jwk := None;
     AuthManager.private_key := None |}.

Definition new_identity : @AuthManager.Generated toy_crypto :=
  {| AuthManager.randomUUID := js "2f1c8a0e-0000-4000-8000-000000000001";
     AuthManager.generated_privateKey := 42%N : @CryptoKey toy_crypto;
     AuthManager.generated_publicKeyJWK :=
       JObj [ (js "kty", JStr (js "EC")); (js "crv", JStr (js "P-256")) ] |}.

(** The clock passes from 1999 ms to 2000 ms between the two readings. *)
Definition oracle : @Oracle toy_crypto :=
  {| now_iat := 1999;
     now_exp := 2000;
     entropy := 7%N : @Entropy toy_crypto;
     metadata := JObj [ (js "browser_name", JStr (js "Google Chrome")) ];
     generated := new_identity |}.

Definition fresh_client : @World toy_crypto :=
  @StreamControllerClient.constructor toy_crypto (js "extension") empty_store 1%positive.

Definition command_frame : list (jsstring * json) :=
  [ (js "type", JStr (js "command"));
    (js "action", JStr (js "toggle_mic")) ].

Definition handshake_success : list (jsstring * json) :=
  [ (js "type", JStr (js "handshake_success")) ].

(** Connect, open, and be approved twice by the host. *)
Definition approved_twice : list (@Oracle toy_crypto * StreamControllerClient.Input) :=
  [ (oracle, StreamControllerClient.CallConnect);
    (oracle, StreamControllerClient.ReadyStateChange OPEN);
    (oracle, StreamControllerClient.OnOpen);
    (oracle, StreamControllerClient.OnMessage (Some handshake_success));
    (oracle, StreamControllerClient.OnMessage (Some handshake_success)) ].

Definition authorized_client : @World toy_crypto :=
  @StreamControllerClient.run toy_crypto fresh_client approved_twice.

Definition state_payload : list (jsstring * json) :=
  [ (js "type", JStr (js "state"));
    (js "data", MeetingTabStateManager.state_to_json Samples.standup) ].

End ClientSamples.

(** ** Properties of the reconciler *)

Module ReconcilerProps.
Import MeetingTabStateManager.

(** *** [Object.keys] *)

Lemma elem_of_Object_keys {V} (o : gmap N V) (k : N) :
  k ∈ Object_keys o ↔ is_Some (o !! k).
Proof.
  unfold Object_keys.
  rewrite merge_sort_Permutation, elem_of_elements. apply elem_of_dom.
Qed.

Lemma Object_keys_sorted {V} (o : gmap N V) :
  StronglySorted N.le (Object_keys o).
Proof. apply StronglySorted_merge_sort; apply _. Qed.

(** *** The search loop *)

Lemma find_loop_None (ts : gmap N TabEntry) (keys : list N) :
  find_loop ts keys = None → ∀ k, k ∈ keys → ¬ reports_meeting ts k.
Proof.
  induction keys as [|x keys IH]; simpl; intros Hf k Hk.
  - by apply elem_of_nil in Hk.
  - intros (e & He & Hm).
    apply elem_of_cons in Hk as [->|Hk].
    + rewrite He, Hm in Hf. discriminate.
    + destruct (ts !! x) as [ex|]; [destruct (in_meeting (state ex)); [discriminate|]|];
        apply (IH Hf k Hk); by exists e.
Qed.

Lemma find_loop_Some (ts : gmap N TabEntry) (keys : list N) (a : N) :
  StronglySorted N.le keys →
  find_loop ts keys = Some a →
  a ∈ keys ∧ reports_meeting ts a ∧
  ∀ k, k ∈ keys → reports_meeting ts k → (a ≤ k)%N.
Proof.
  induction 1 as [|x keys Hs IH Hall]; simpl; [discriminate|].
  intros Hf.
  assert (Hrest : find_loop ts keys = Some a →
                  a ∈ x :: keys ∧ reports_meeting ts a ∧
                  ∀ k, k ∈ x :: keys → reports_meeting ts k → (a ≤ k)%N
                  ∨ reports_meeting ts x).
  { intros Hf'. destruct (IH Hf') as (Hin & Hrep & Hmin).
    split; [by apply elem_of_cons; right|]. split; [done|].
    intros k Hk Hk'. apply elem_of_cons in Hk as [->|Hk]; [by right|].
    left. by apply Hmin. }
  destruct (ts !! x) as [ex|] eqn:Hx.
  - destruct (in_meeting (state ex)) eqn:Hm.
    + injection Hf as <-. split; [apply elem_of_cons; by left|].
      split; [by exists ex|].
      intros k Hk _. apply elem_of_cons in Hk as [->|Hk]; [reflexivity|].
      rewrite Forall_forall in Hall. by apply Hall.
    + destruct (Hrest Hf) as (Hin & Hrep & Hmin). split; [done|]. split; [done|].
      intros k Hk Hk'. destruct (Hmin k Hk Hk') as [?|(e & He & He')]; [done|].
      rewrite Hx in He. injection He as <-. congruence.
  - destruct (Hrest Hf) as (Hin & Hrep & Hmin). split; [done|]. split; [done|].
    intros k Hk Hk'. destruct (Hmin k Hk Hk') as [?|(e & He & _)]; [done|].
    rewrite Hx in He. discriminate.
Qed.

(** [_findActiveMeetingTabIdFromStates] returns the smallest identifier
    of a stored report that is in a meeting. *)
Lemma find_active_Some (ts : gmap N TabEntry) (a : N) :
  _findActiveMeetingTabIdFromStates ts = Some a ↔
  reports_meeting ts a ∧ ∀ k, reports_meeting ts k → (a ≤ k)%N.
Proof.
  unfold _findActiveMeetingTabIdFromStates. split.
  - intros Hf. apply find_loop_Some in Hf as (_ & Hrep & Hmin);
      [|apply Object_keys_sorted].
    split; [done|]. intros k Hk. apply Hmin; [|done].
    apply elem_of_Object_keys. destruct Hk as (e & -> & _). by eexists.
  - intros [Hrep Hmin].
    destruct (find_loop ts (Object_keys ts)) as [b|] eqn:Hf.
    + apply find_loop_Some in Hf as (_ & Hrepb & Hminb);
        [|apply Object_keys_sorted].
      f_equal. apply (anti_symm N.le).
      * apply Hminb; [|done]. apply elem_of_Object_keys.
        destruct Hrep as (e & -> & _). by eexists.
      * by apply Hmin.
    + exfalso. apply (find_loop_None _ _ Hf a); [|done].
      apply elem_of_Object_keys. destruct Hrep as (e & -> & _). by eexists.
Qed.

Lemma find_active_None (ts : gmap N TabEntry) :
  _findActiveMeetingTabIdFromStates ts = None ↔ ∀ k, ¬ reports_meeting ts k.
Proof.
  split.
  - intros Hf k Hk. apply (find_loop_None _ _ Hf k); [|done].
    apply elem_of_Object_keys. destruct Hk as (e & -> & _). by eexists.
  - intros Hnone.
    destruct (_findActiveMeetingTabIdFromStates ts) as [a|] eqn:Hf; [|done].
    apply find_active_Some in Hf as [Hrep _]. by destruct (Hnone a).
Qed.

Lemma find_active_empty : _findActiveMeetingTabIdFromStates ∅ = None.
Proof.
  apply find_active_None. intros k (e & He & _).
  by rewrite lookup_empty in He.
Qed.

(** *** The eviction loop *)

Lemma clean_step_lookup (m : Manager) (now : Z) ts d x k e :
  (clean_step m now (ts, d) x).1 !! k = Some e ↔
  ts !! k = Some e ∧ (k = x → now - last_updated e ≤ timeout m).
Proof.
  unfold clean_step; simpl.
  destruct (ts !! x) as [ex|] eqn:Hx; [case_decide|]; simpl.
  - rewrite lookup_delete_Some. split.
    + intros [Hne Hk]. split; [done|]. intros ->. by destruct Hne.
    + intros [Hk Hlive]. split; [|done]. intros <-.
      rewrite Hx in Hk. injection Hk as <-. specialize (Hlive eq_refl). lia.
  - split; [|by intros [? _]]. intros Hk. split; [done|]. intros ->.
    rewrite Hx in Hk. injection Hk as <-. lia.
  - split; [|by intros [? _]]. intros Hk. split; [done|]. intros ->.
    rewrite Hx in Hk. discriminate.
Qed.

Lemma clean_step_flag (m : Manager) (now : Z) ts d x :
  (clean_step m now (ts, d) x).2 = true ↔
  d = true ∨ ∃ e, ts !! x = Some e ∧ now - last_updated e > timeout m.
Proof.
  unfold clean_step; simpl.
  destruct (ts !! x) as [ex|] eqn:Hx; [case_decide|]; simpl.
  - split; [|done]. intros _. right. by exists ex.
  - split; [by left|]. intros [?|(e & He & ?)]; [done|].
    injection He as <-. lia.
  - split; [by left|]. intros [?|(e & He & ?)]; [done|discriminate].
Qed.

Lemma clean_foldl_lookup (m : Manager) (now : Z) keys :
  ∀ ts d k e,
    (foldl (clean_step m now) (ts, d) keys).1 !! k = Some e ↔
    ts !! k = Some e ∧ (k ∈ keys → now - last_updated e ≤ timeout m).
Proof.
  induction keys as [|x keys IH]; intros ts d k e; simpl.
  - split; [|by intros [? _]]. intros ?. split; [done|].
    intros Hk. by apply elem_of_nil in Hk.
  - destruct (clean_step m now (ts, d) x) as [ts1 d1] eqn:Hstep.
    rewrite IH.
    pose proof (clean_step_lookup m now ts d x k e) as Hl.
    rewrite Hstep in Hl; simpl in Hl. rewrite Hl, elem_of_cons.
    split.
    + intros [[Hk Hx] Hrest]. split; [done|].
      intros [->|Hin]; [by apply Hx|by apply Hrest].
    + intros [Hk Hall]. split; [split; [done|]|].
      * intros ->. apply Hall. by left.
      * intros Hin. apply Hall. by right.
Qed.

Lemma clean_foldl_flag (m : Manager) (now : Z) keys :
  ∀ ts d,
    (foldl (clean_step m now) (ts, d) keys).2 = true ↔
    d = true ∨
    ∃ k e, k ∈ keys ∧ ts !! k = Some e ∧ now - last_updated e > timeout m.
Proof.
  induction keys as [|x keys IH]; intros ts d; simpl.
  - split; [by left|]. intros [?|(k & e & Hk & _)]; [done|].
    by apply elem_of_nil in Hk.
  - destruct (clean_step m now (ts, d) x) as [ts1 d1] eqn:Hstep.
    rewrite IH.
    pose proof (clean_step_flag m now ts d x) as Hd.
    rewrite Hstep in Hd; simpl in Hd. rewrite Hd.
    assert (Hl : ∀ k e, ts1 !! k = Some e ↔
               ts !! k = Some e ∧ (k = x → now - last_updated e ≤ timeout m)).
    { intros k e. pose proof (clean_step_lookup m now ts d x k e) as Hl.
      by rewrite Hstep in Hl. }
    split.
    + intros [[?|(e & He & Hst)]|(k & e & Hk & He & Hst)].
      * by left.
      * right. exists x, e. split; [apply elem_of_cons; by left|done].
      * right. exists k, e. apply Hl in He as [He _].
        split; [apply elem_of_cons; by right|done].
    + intros [?|(k & e & Hk & He & Hst)]; [by left; left|].
      destruct (decide (k = x)) as [->|Hne].
      * left. right. by exists e.
      * apply elem_of_cons in Hk as [?|Hk]; [done|].
        right. exists k, e. split; [done|]. split; [|done].
        apply Hl. split; [done|]. by intros ?.
Qed.

(** The loop keeps exactly the entries that pass the test of the source
    and reports whether it removed one. *)
Lemma clean_loop_lookup (m : Manager) (now : Z) ts k e :
  (clean_loop m now ts).1 !! k = Some e ↔
  ts !! k = Some e ∧ now - last_updated e ≤ timeout m.
Proof.
  unfold clean_loop. rewrite clean_foldl_lookup. split.
  - intros [Hk Hlive]. split; [done|]. apply Hlive.
    apply elem_of_Object_keys. by eexists.
  - intros [? ?]. by split.
Qed.

Lemma clean_loop_deleted (m : Manager) (now : Z) ts :
  (clean_loop m now ts).2 = true ↔
  ∃ k e, ts !! k = Some e ∧ now - last_updated e > timeout m.
Proof.
  unfold clean_loop. rewrite clean_foldl_flag. split.
  - intros [?|(k & e & _ & ? & ?)]; [done|]. by exists k, e.
  - intros (k & e & Hk & ?). right. exists k, e.
    split; [|done]. apply elem_of_Object_keys. by eexists.
Qed.

Lemma clean_loop_unchanged (m : Manager) (now : Z) ts :
  (clean_loop m now ts).2 = false → (clean_loop m now ts).1 = ts.
Proof.
  intros Hd. apply map_eq. intros k. apply option_eq. intros e.
  rewrite clean_loop_lookup. split; [by intros [? _]|].
  intros Hk. split; [done|].
  destruct (decide (now - last_updated e > timeout m)) as [Hst|]; [|lia].
  assert ((clean_loop m now ts).2 = true) as Ht
    by (apply clean_loop_deleted; by exists k, e).
  congruence.
Qed.

(** *** The stored pair is consistent after every operation *)

Lemma initial_consistent : consistent (_readStorage initial_world).
Proof. unfold consistent; simpl. by rewrite find_active_empty. Qed.

Lemma clean_consistent (m : Manager) (now : Z) (w : World) :
  consistent (_readStorage w) →
  consistent (_readStorage (_cleanStaleStates m now w)).
Proof.
  intros Hw. unfold _cleanStaleStates.
  destruct (clean_loop m now (tabStates (_readStorage w))) as [ts' [|]]; [|done].
  by case_decide.
Qed.

Lemma update_consistent (now : Z) (tab : N) (st : MeetingState) (w : World) :
  consistent (_readStorage (update_after_clean now tab st w)).
Proof. unfold update_after_clean. by case_decide. Qed.

Lemma step_consistent (m : Manager) (w : World) (c : Call) :
  consistent (_readStorage w) → consistent (_readStorage (step m w c)).
Proof.
  intros Hw. destruct c; simpl.
  - by apply clean_consistent.
  - apply update_consistent.
  - by apply clean_consistent.
Qed.

Lemma run_consistent (m : Manager) (calls : list Call) :
  consistent (_readStorage (run m calls)).
Proof.
  unfold run. generalize initial_consistent. generalize initial_world.
  induction calls as [|c calls IH]; intros w Hw; simpl; [done|].
  apply IH. by apply step_consistent.
Qed.

(** What the sweep leaves in the mapping. *)
Lemma clean_tabStates (m : Manager) (now : Z) (w : World) (k : N) (e : TabEntry) :
  tabStates (_readStorage (_cleanStaleStates m now w)) !! k = Some e ↔
  tabStates (_readStorage w) !! k = Some e ∧ now - last_updated e ≤ timeout m.
Proof.
  pose proof (clean_loop_lookup m now (tabStates (_readStorage w)) k e) as Hl.
  pose proof (clean_loop_unchanged m now (tabStates (_readStorage w))) as Hu.
  unfold _cleanStaleStates.
  destruct (clean_loop m now (tabStates (_readStorage w))) as [ts' [|]].
  - by case_decide.
  - cbn [fst snd] in Hl, Hu. by rewrite Hu in Hl.
Qed.

(** The derived state of a consistent store. *)
Lemma current_state_of_consistent (w : World) :
  consistent (_readStorage w) →
  (getActiveMeetingTabId w = None ∧ getCurrentState w = NULL_STATE) ∨
  ∃ a e, getActiveMeetingTabId w = Some a ∧
         tabStates (_readStorage w) !! a = Some e ∧
         in_meeting (state e) = true ∧
         (∀ k, reports_meeting (tabStates (_readStorage w)) k → (a ≤ k)%N) ∧
         getCurrentState w = (if decide (a = 0%N) then NULL_STATE else state e).
Proof.
  intros Hc. unfold getActiveMeetingTabId, getCurrentState.
  destruct (activeMeetingTabId (_readStorage w)) as [a|] eqn:Ha; [|by left].
  right. red in Hc. rewrite Ha in Hc. symmetry in Hc.
  apply find_active_Some in Hc as [(e & He & Hm) Hmin].
  exists a, e. rewrite He. by case_decide.
Qed.

(** *** The authoritative tab *)

(** C1 (as the code has it): whenever some stored report is in a
    meeting, the active tab is the stored in-meeting tab with the smallest
    tab identifier, whatever the order of arrival or the times of the last
    reports, and the derived state is the report of that one tab (tab
    identifiers being nonzero). *)
Theorem authoritative_is_smallest_meeting_tab
    (m : Manager) (calls : list Call) (k : N) :
  let w := run m calls in
  reports_meeting (tabStates (_readStorage w)) k →
  ∃ a e,
    getActiveMeetingTabId w = Some a ∧
    _findActiveMeetingTabIdFromStates (tabStates (_readStorage w)) = Some a ∧
    tabStates (_readStorage w) !! a = Some e ∧
    in_meeting (state e) = true ∧
    (a ≤ k)%N ∧
    (∀ k', reports_meeting (tabStates (_readStorage w)) k' → (a ≤ k')%N) ∧
    (a ≠ 0%N → getCurrentState w = state e).
Proof.
  intros w Hk. pose proof (run_consistent m calls) as Hc. fold w in Hc.
  destruct (current_state_of_consistent w Hc)
    as [[Hnone _]|(a & e & Ha & He & Hm & Hmin & Hcur)].
  - unfold getActiveMeetingTabId in Hnone. red in Hc. rewrite Hnone in Hc.
    symmetry in Hc. rewrite find_active_None in Hc. by destruct (Hc k).
  - exists a, e. split; [done|]. split.
    { red in Hc. unfold getActiveMeetingTabId in Ha. by rewrite <- Hc. }
    repeat split; try done.
    + by apply Hmin.
    + intros Hne. rewrite Hcur. by case_decide.
Qed.

Lemma authoritative_is_smallest_meeting_tab_witness :
  ∃ a e,
    getActiveMeetingTabId (run Samples.manager Samples.two_tabs) = Some a ∧
    _findActiveMeetingTabIdFromStates
      (tabStates (_readStorage (run Samples.manager Samples.two_tabs))) = Some a ∧
    tabStates (_readStorage (run Samples.manager Samples.two_tabs)) !! a = Some e ∧
    in_meeting (state e) = true ∧
    (a ≤ 7)%N ∧
    (∀ k', reports_meeting
             (tabStates (_readStorage (run Samples.manager Samples.two_tabs))) k' →
           (a ≤ k')%N) ∧
    (a ≠ 0%N → getCurrentState (run Samples.manager Samples.two_tabs) = state e).
Proof.
  apply (authoritative_is_smallest_meeting_tab Samples.manager Samples.two_tabs 7%N).
  eexists. split; [vm_compute; reflexivity|reflexivity].
Defined.

(** C1 (as stated) fails: tab 7 arrives first and has the earliest report,
    both tabs are live, and the code makes tab 3 authoritative. *)
Lemma first_arrival_is_not_authoritative :
  let reports :=
    DesignDocument.record
      {| DesignDocument.instance_id := 3; DesignDocument.last_report := Samples.retro;
         DesignDocument.last_seen_at := 2000 |}
      (DesignDocument.record
         {| DesignDocument.instance_id := 7; DesignDocument.last_report := Samples.standup;
            DesignDocument.last_seen_at := 1000 |} []) in
  DesignDocument.authoritative 2000 60000 reports = Some 7%N ∧
  getActiveMeetingTabId (run Samples.manager Samples.two_tabs) = Some 3%N ∧
  getCurrentState (run Samples.manager Samples.two_tabs) = Samples.retro ∧
  getActiveMeetingTabId (run Samples.manager Samples.two_tabs)
    ≠ DesignDocument.authoritative 2000 60000 reports.
Proof. vm_compute. repeat split; congruence. Qed.

(** *** Staleness and the sweep *)

(** C4 (as the code has it): the sweep keeps exactly the stored entries
    with [now - last_updated <= timeout] and evicts the others; afterwards
    the stored active tab is the one the search finds among the entries
    kept; the defaults are 60000 ms and 5000 ms. *)
Theorem sweep_keeps_entries_within_timeout
    (m : Manager) (calls : list Call) (now : Z) (k : N) (e : TabEntry) :
  let w := run m calls in
  let w' := _cleanStaleStates m now w in
  (tabStates (_readStorage w') !! k = Some e ↔
   tabStates (_readStorage w) !! k = Some e ∧ now - last_updated e ≤ timeout m) ∧
  getActiveMeetingTabId w' =
    _findActiveMeetingTabIdFromStates (tabStates (_readStorage w')) ∧
  timeout (constructor None None) = 60000 ∧
  cleanupInterval (constructor None None) = 5000.
Proof.
  intros w w'. split; [apply clean_tabStates|]. split; [|done].
  apply (clean_consistent m now w (run_consistent m calls)).
Qed.

(** C4 (as stated) fails on the boundary: a report seen exactly
    [staleness_timeout] ago is not live in the words of the design
    document, and the sweep keeps it. *)
Lemma entry_at_timeout_is_kept :
  let w' := _cleanStaleStates Samples.manager 60000
              (run Samples.manager Samples.one_tab) in
  DesignDocument.live 60000 (timeout Samples.manager)
    {| DesignDocument.instance_id := 5; DesignDocument.last_report := Samples.standup;
       DesignDocument.last_seen_at := 0 |} = false ∧
  tabStates (_readStorage w') !! 5%N =
    Some {| tabId := 5; state := Samples.standup; last_updated := 0 |} ∧
  getCurrentState w' = Samples.standup.
Proof. vm_compute. repeat split. Qed.

Lemma sweep_evicts_all (m : Manager) (now : Z) (w : World) :
  map_Forall (λ _ e, now - last_updated e > timeout m) (tabStates (_readStorage w)) →
  tabStates (_readStorage (_cleanStaleStates m now w)) = ∅.
Proof.
  intros Hall. apply map_empty. intros k. apply eq_None_not_Some.
  intros [e He]. apply clean_tabStates in He as [He Hlive].
  specialize (Hall k e He). simpl in Hall. lia.
Qed.

Lemma null_state_when_empty (w : World) :
  consistent (_readStorage w) →
  tabStates (_readStorage w) = ∅ →
  getCurrentState w = NULL_STATE.
Proof.
  intros Hc Hempty.
  destruct (current_state_of_consistent _ Hc)
    as [[_ Hnull]|(a & e & _ & He & _)]; [done|].
  rewrite Hempty, lookup_empty in He. discriminate.
Qed.

(** When every stored report fails the staleness test of the sweep, the
    derived state after the sweep is [NULL_STATE]. *)
Lemma all_stale_gives_null_state (m : Manager) (calls : list Call) (now : Z) :
  map_Forall (λ _ e, now - last_updated e > timeout m)
    (tabStates (_readStorage (run m calls))) →
  getCurrentState (_cleanStaleStates m now (run m calls)) = NULL_STATE.
Proof.
  intros Hall. apply null_state_when_empty.
  - apply clean_consistent, run_consistent.
  - by apply sweep_evicts_all.
Qed.

(** C3: when every stored report fails the test of the sweep
    ([now - last_updated > timeout]; an empty store is the case with no
    report at all), the sweep leaves no report and the derived state after
    it is [NULL_STATE], which is not in a meeting, has no meeting id and
    counts no participant, and differs from every report that is in a
    meeting. *)
Theorem no_report_within_timeout_gives_null_state
    (m : Manager) (calls : list Call) (now : Z) :
  let w := _cleanStaleStates m now (run m calls) in
  map_Forall (λ _ e, now - last_updated e > timeout m)
    (tabStates (_readStorage (run m calls))) →
  tabStates (_readStorage w) = ∅ ∧
  getCurrentState w = NULL_STATE ∧
  in_meeting (getCurrentState w) = false ∧
  meeting_id (getCurrentState w) = None ∧
  participant_count (getCurrentState w) = 0 ∧
  ∀ s, in_meeting s = true → getCurrentState w ≠ s.
Proof.
  intros w Hstale.
  split; [by apply sweep_evicts_all|].
  assert (getCurrentState w = NULL_STATE) as ->
    by (by apply all_stale_gives_null_state).
  repeat split. intros s Hs <-. discriminate.
Qed.

Lemma no_report_within_timeout_gives_null_state_witness :
  let w := _cleanStaleStates Samples.manager 70000
             (run Samples.manager Samples.two_tabs) in
  map_Forall (λ _ e, 70000 - last_updated e > timeout Samples.manager)
    (tabStates (_readStorage (run Samples.manager Samples.two_tabs))) ∧
  tabStates (_readStorage w) = ∅ ∧
  getCurrentState w = NULL_STATE ∧
  in_meeting (getCurrentState w) = false ∧
  meeting_id (getCurrentState w) = None ∧
  participant_count (getCurrentState w) = 0 ∧
  ∀ s, in_meeting s = true → getCurrentState w ≠ s.
Proof.
  assert (map_Forall (λ _ e, 70000 - last_updated e > timeout Samples.manager)
            (tabStates (_readStorage (run Samples.manager Samples.two_tabs))))
    as Hstale.
  { apply map_Forall_lookup. intros k e He.
    assert (last_updated e ≤ 2000) as Hle; [|vm_compute timeout; lia].
    revert He.
    replace (tabStates (_readStorage (run Samples.manager Samples.two_tabs)))
      with (<[3%N := {| tabId := 3; state := Samples.retro; last_updated := 2000 |}]>
              (<[7%N := {| tabId := 7; state := Samples.standup;
                           last_updated := 1000 |}]> (∅ : gmap N TabEntry)))
      by (vm_compute; reflexivity).
    intros He. apply lookup_insert_Some in He as [[_ <-]|[_ He]]; [simpl; lia|].
    apply lookup_insert_Some in He as [[_ <-]|[_ He]]; [simpl; lia|].
    by rewrite lookup_empty in He. }
  split; [exact Hstale|].
  exact (no_report_within_timeout_gives_null_state
           Samples.manager Samples.two_tabs 70000 Hstale).
Defined.

(** C3 (as stated) fails at the boundary: a report seen exactly
    [timeout] ago is not live by the test [now - last_seen_at < timeout],
    so no report is live; the sweep keeps it all the same, and the derived
    state is still that report, not [NULL_STATE]. *)
Lemma report_at_timeout_is_still_current :
  let stored := run Samples.manager Samples.one_tab in
  let w := _cleanStaleStates Samples.manager 60000 stored in
  tabStates (_readStorage stored)
    = {[ 5%N := {| tabId := 5; state := Samples.standup; last_updated := 0 |} ]} ∧
  DesignDocument.live 60000 (timeout Samples.manager)
    {| DesignDocument.instance_id := 5; DesignDocument.last_report := Samples.standup;
       DesignDocument.last_seen_at := 0 |} = false ∧
  getCurrentState w = Samples.standup ∧
  in_meeting (getCurrentState w) = true ∧
  getCurrentState w ≠ NULL_STATE.
Proof. vm_compute. repeat split. discriminate. Qed.

(** *** Change events *)

Lemma clean_emitted (m : Manager) (now : Z) (w : World) :
  let w1 := _cleanStaleStates m now w in
  (emitted w1 = emitted w ++ [getCurrentState w1] ∧
   serialize (getCurrentState w) ≠ serialize (getCurrentState w1)) ∨
  (emitted w1 = emitted w ∧
   serialize (getCurrentState w) = serialize (getCurrentState w1)).
Proof.
  unfold _cleanStaleStates.
  destruct (clean_loop m now (tabStates (_readStorage w))) as [ts' [|]];
    [|by right].
  case_decide as Hd.
  - by left.
  - by right.
Qed.

Lemma update_emitted (now : Z) (tab : N) (st : MeetingState) (w : World) :
  let w2 := update_after_clean now tab st w in
  (emitted w2 = emitted w ++ [getCurrentState w2] ∧
   serialize (getCurrentState w) ≠ serialize (getCurrentState w2)) ∨
  (emitted w2 = emitted w ∧
   serialize (getCurrentState w) = serialize (getCurrentState w2)).
Proof.
  unfold update_after_clean. case_decide as Hd.
  - by left.
  - by right.
Qed.

(** The search only looks at which tabs report a meeting. *)
Lemma find_active_ext (ts1 ts2 : gmap N TabEntry) :
  (∀ k, reports_meeting ts1 k ↔ reports_meeting ts2 k) →
  _findActiveMeetingTabIdFromStates ts1 = _findActiveMeetingTabIdFromStates ts2.
Proof.
  intros Hext.
  destruct (_findActiveMeetingTabIdFromStates ts1) as [a|] eqn:H1; symmetry.
  - apply find_active_Some in H1 as [Hrep Hmin]. apply find_active_Some.
    split; [by apply Hext|]. intros k Hk. apply Hmin. by apply Hext.
  - apply find_active_None. intros k Hk. apply Hext in Hk.
    revert k Hk. by apply find_active_None.
Qed.

(** Over a consistent store, a tab that reports again the state it last
    reported leaves the derived state as it is, and no event is emitted. *)
Lemma re_report_of_consistent
    (now : Z) (tab : N) (e : TabEntry) (w : World) :
  consistent (_readStorage w) →
  tabStates (_readStorage w) !! tab = Some e →
  getCurrentState (update_after_clean now tab (state e) w) = getCurrentState w ∧
  emitted (update_after_clean now tab (state e) w) = emitted w.
Proof.
  intros Hc He.
  set (e' := {| tabId := tab; state := state e; last_updated := now |}).
  set (ts := tabStates (_readStorage w)) in *.
  assert (Hlook : ∀ k, state <$> (<[tab := e']> ts !! k) = state <$> (ts !! k)).
  { intros k. destruct (decide (tab = k)) as [<-|Hne].
    - by rewrite lookup_insert_eq, He.
    - by rewrite lookup_insert_ne. }
  assert (Hfind : _findActiveMeetingTabIdFromStates (<[tab := e']> ts)
                  = _findActiveMeetingTabIdFromStates ts).
  { apply find_active_ext. intros k. unfold reports_meeting.
    specialize (Hlook k).
    destruct (<[tab := e']> ts !! k) as [x|], (ts !! k) as [y|];
      simpl in Hlook; try discriminate.
    - injection Hlook as Hxy. split; intros (z & Hz & Hm);
        injection Hz as <-; eexists; split; try done; congruence.
    - split; intros (z & Hz & _); discriminate. }
  assert (Hcur : getCurrentState
                   (_writeStorage
                      {| tabStates := <[tab := e']> ts;
                         activeMeetingTabId :=
                           _findActiveMeetingTabIdFromStates (<[tab := e']> ts) |} w)
                 = getCurrentState w).
  { unfold getCurrentState. cbn [_writeStorage _readStorage storage
      tabStates activeMeetingTabId].
    red in Hc. fold ts in Hc. fold (_readStorage w). rewrite Hfind, Hc.
    destruct (_findActiveMeetingTabIdFromStates ts) as [a|]; [|done].
    case_decide; [done|]. fold ts. specialize (Hlook a).
    destruct (<[tab := e']> ts !! a), (ts !! a); simpl in Hlook; congruence. }
  unfold update_after_clean. fold ts. fold e'. rewrite Hcur.
  case_decide as Hd; [by destruct Hd|]. by rewrite Hcur.
Qed.


(** A tab that reports again the state it last reported leaves the
    derived state as it is, and no event is emitted. *)
Lemma re_report_emits_nothing
    (m : Manager) (calls : list Call) (now : Z) (tab : N) (e : TabEntry) :
  let w := run m calls in
  tabStates (_readStorage w) !! tab = Some e →
  getCurrentState (update_after_clean now tab (state e) w) = getCurrentState w ∧
  emitted (update_after_clean now tab (state e) w) = emitted w.
Proof. intros w He. apply re_report_of_consistent; [apply run_consistent|done]. Qed.

(** A sweep over a store with no report past the timeout changes
    nothing. *)
Lemma sweep_of_fresh_store (m : Manager) (now : Z) (w : World) :
  map_Forall (λ _ e, now - last_updated e ≤ timeout m) (tabStates (_readStorage w)) →
  _cleanStaleStates m now w = w.
Proof.
  intros Hfresh. unfold _cleanStaleStates.
  destruct (clean_loop m now (tabStates (_readStorage w))) as [ts d] eqn:Hloop.
  destruct d; [|done].
  assert ((clean_loop m now (tabStates (_readStorage w))).2 = true) as Hd
    by (by rewrite Hloop).
  apply clean_loop_deleted in Hd as (k & e & Hk & Hstale).
  specialize (Hfresh k e Hk). simpl in Hfresh. lia.
Qed.

(** C7: the sweep, and the mapping update that follows it inside
    [updateTabState], each emit one 'state-changed' event carrying the new
    derived state when its serialization differs from that of the derived
    state read before the step, and emit nothing when the two serializations
    are equal.  When the sweep at the start of [updateTabState] finds no
    report past the timeout, the call as a whole emits exactly when the
    serialized derived state after it differs from the one before it, and
    over a consistent store a tab that reports its stored state again emits
    nothing. *)
Theorem state_changed_iff_serialized_differs
    (m : Manager) (now_clean now_update : Z) (tab : N) (st : MeetingState)
    (w : World) :
  let w1 := _cleanStaleStates m now_clean w in
  let w2 := updateTabState m now_clean now_update tab st w in
  let fresh :=
    map_Forall (λ _ e, now_clean - last_updated e ≤ timeout m)
      (tabStates (_readStorage w)) in
  ((emitted w1 = emitted w ++ [getCurrentState w1] ∧
    serialize (getCurrentState w) ≠ serialize (getCurrentState w1)) ∨
   (emitted w1 = emitted w ∧
    serialize (getCurrentState w) = serialize (getCurrentState w1))) ∧
  ((emitted w2 = emitted w1 ++ [getCurrentState w2] ∧
    serialize (getCurrentState w1) ≠ serialize (getCurrentState w2)) ∨
   (emitted w2 = emitted w1 ∧
    serialize (getCurrentState w1) = serialize (getCurrentState w2))) ∧
  (fresh →
   w1 = w ∧
   ((emitted w2 = emitted w ++ [getCurrentState w2] ∧
     serialize (getCurrentState w) ≠ serialize (getCurrentState w2)) ∨
    (emitted w2 = emitted w ∧
     serialize (getCurrentState w) = serialize (getCurrentState w2)))) ∧
  (fresh → consistent (_readStorage w) →
   ∀ e, tabStates (_readStorage w) !! tab = Some e → state e = st →
        emitted w2 = emitted w ∧ getCurrentState w2 = getCurrentState w).
Proof.
  intros w1 w2 fresh.
  split; [apply clean_emitted|]. split; [apply update_emitted|]. split.
  - intros Hfresh. pose proof (sweep_of_fresh_store m now_clean w Hfresh) as Hw1.
    split; [exact Hw1|].
    subst w2. unfold updateTabState. rewrite Hw1.
    apply update_emitted.
  - intros Hfresh Hc e He <-.
    subst w2. unfold updateTabState.
    rewrite (sweep_of_fresh_store m now_clean w Hfresh).
    by destruct (re_report_of_consistent now_update tab e w Hc He).
Qed.

Lemma re_report_emits_nothing_example :
  emitted (update_after_clean 9000 3%N Samples.retro
             (run Samples.manager Samples.two_tabs))
  = emitted (run Samples.manager Samples.two_tabs).
Proof.
  refine (proj2 (re_report_emits_nothing Samples.manager Samples.two_tabs 9000 3%N
            {| tabId := 3; state := Samples.retro; last_updated := 2000 |} _)).
  vm_compute. reflexivity.
Qed.

(** C7 (as stated) fails for [updateTabState]: a tab whose report went
    stale reports the same state again.  The derived state after the call
    is the one before it, serialized alike, and yet two events are emitted:
    the sweep inside [updateTabState] evicts the report and emits
    [NULL_STATE], the update restores it and emits its state. *)
Example stale_re_report_emits_twice :
  let w := run Samples.manager Samples.one_tab in
  let w' := updateTabState Samples.manager 70000 70000 5%N Samples.standup w in
  getCurrentState w = Samples.standup ∧
  getCurrentState w' = Samples.standup ∧
  serialize (getCurrentState w') = serialize (getCurrentState w) ∧
  emitted w' = emitted w ++ [NULL_STATE; Samples.standup].
Proof. vm_compute. repeat split. Qed.

(** *** The stored active tab *)

(** The tab identifier 0 is falsy: were it in a meeting it would be the
    stored active tab, and the derived state would still be [NULL_STATE]. *)
Example tab_zero_is_not_current :
  let w := run Samples.manager [CallUpdateTabState 0 0 0%N Samples.standup] in
  getActiveMeetingTabId w = Some 0%N ∧ getCurrentState w = NULL_STATE.
Proof. vm_compute. repeat split. Qed.

(** C9: after any sequence of [init], [updateTabState] and sweeps, the
    stored active tab is null or a stored tab whose report is in a
    meeting, and the derived state is [NULL_STATE] or the report of a
    stored tab that is in a meeting. *)
Theorem active_tab_is_stored_meeting_tab (m : Manager) (calls : list Call) :
  let w := run m calls in
  (getActiveMeetingTabId w = None ∨
   ∃ a, getActiveMeetingTabId w = Some a ∧
        reports_meeting (tabStates (_readStorage w)) a) ∧
  (getCurrentState w = NULL_STATE ∨
   ∃ a e, tabStates (_readStorage w) !! a = Some e ∧
          in_meeting (state e) = true ∧
          getCurrentState w = state e).
Proof.
  intros w.
  destruct (current_state_of_consistent w (run_consistent m calls))
    as [[Hnone Hnull]|(a & e & Ha & He & Hm & _ & Hcur)].
  - split; by left.
  - split.
    + right. exists a. split; [done|]. by exists e.
    + destruct (decide (a = 0%N)); [by left|]. right. by exists a, e.
Qed.

End ReconcilerProps.


(** ** Properties of signing *)

Module AuthProps.
Import AuthManager.

Lemma obj_get_set_eq (k : jsstring) (v : json) (props : list (jsstring * json)) :
  obj_get k (obj_set k v props) = Some v.
Proof.
  induction props as [|[k' v'] props IH]; simpl.
  - by rewrite decide_True.
  - destruct (decide (k' = k)) as [->|Hne]; simpl.
    + by rewrite decide_True.
    + by rewrite decide_False.
Qed.

Lemma obj_get_set_ne (k k' : jsstring) (v : json) (props : list (jsstring * json)) :
  k ≠ k' → obj_get k (obj_set k' v props) = obj_get k props.
Proof.
  intros Hne. induction props as [|[k0 v0] props IH]; simpl.
  - rewrite decide_False; [done|]. congruence.
  - destruct (decide (k0 = k')) as [->|Hne0]; simpl.
    + rewrite !decide_False; [done|congruence|congruence].
    + destruct (decide (k0 = k)); [done|apply IH].
Qed.

(** The bytes of an [ArrayBuffer] are always accepted by [btoa]. *)
Lemma btoa_bytes (bytes : list ascii) :
  btoa (map N_of_ascii bytes) = Ok (b64_groups (map N_of_ascii bytes)).
Proof.
  unfold btoa.
  assert (forallb (λ c, c <? 256)%N (map N_of_ascii bytes) = true) as ->; [|done].
  induction bytes as [|a bytes IH]; simpl; [done|].
  rewrite IH, andb_true_r. apply N.ltb_lt, N_ascii_bounded.
Qed.

Section WithCrypto.
Context `{WebCrypto}.

(** [initialize] always ends with a private key and an instance id. *)
Lemma initialize_loads_identity (g : Generated) (store : KeyStore) (am : t) :
  is_Some (privateKey (initialize g store am).1) ∧
  is_Some (instanceId (initialize g store am).1).
Proof.
  unfold initialize, _getOrCreateInstanceId, _loadKeyPair, _generateKeyPair.
  destruct (instance_id store) as [id|]; [destruct (decide (id = []))|];
    simpl; destruct (public_key_jwk store); simpl;
    destruct (private_key store); simpl; split; by eexists.
Qed.

(** C8: without a private key, as in a manager that was never
    initialized, [signMessage] throws and returns no token. *)
Theorem signMessage_without_key_throws
    (am : t) (payload : list (jsstring * json)) (now_iat now_exp : Z)
    (entropy : Entropy) :
  privateKey am = None →
  signMessage am payload now_iat now_exp entropy = Throw "No private key available" ∧
  ∀ token, signMessage am payload now_iat now_exp entropy ≠ Ok token.
Proof.
  intros Hkey. unfold signMessage. rewrite Hkey. split; [done|]. by intros token.
Qed.

Lemma fullPayload_claims (am : t) (payload : list (jsstring * json))
    (now_iat now_exp : Z) :
  obj_get (js "iat") (fullPayload am payload now_iat now_exp)
    = Some (JNum (now_iat / 1000)) ∧
  obj_get (js "exp") (fullPayload am payload now_iat now_exp)
    = Some (JNum (now_exp / 1000 + 300)) ∧
  obj_get (js "instance_id") (fullPayload am payload now_iat now_exp)
    = Some (string_or_null (instanceId am)).
Proof.
  unfold fullPayload. split; [|split].
  - rewrite obj_get_set_ne by (vm_compute; congruence).
    rewrite obj_get_set_ne by (vm_compute; congruence).
    apply obj_get_set_eq.
  - rewrite obj_get_set_ne by (vm_compute; congruence).
    apply obj_get_set_eq.
  - apply obj_get_set_eq.
Qed.

(** C5 (as the code has it): after [initialize], a payload whose
    serialization [btoa] accepts is signed into a token
    header.payload.signature: the payload part carries [iat], the first
    reading of the clock in whole seconds, [exp], the second reading in
    whole seconds plus 300, and the instance id; the signature is the
    private key's signature over the encoded header and payload.  [exp] is
    [iat + 300] when both readings fall in the same second. *)
Theorem token_of_signMessage
    (g : Generated) (store : KeyStore) (am0 : t)
    (payload : list (jsstring * json)) (now_iat now_exp : Z) (entropy : Entropy) :
  let am := (initialize g store am0).1 in
  let full := fullPayload am payload now_iat now_exp in
  forallb (λ c, c <? 256)%N (JSON_stringify (JObj full)) = true →
  ∃ key encodedHeader encodedPayload encodedSignature,
    privateKey am = Some key ∧
    _base64UrlEncode (OfString (JSON_stringify header)) = Ok encodedHeader ∧
    _base64UrlEncode (OfString (JSON_stringify (JObj full))) = Ok encodedPayload ∧
    _base64UrlEncode
      (OfArrayBuffer
         (subtle_sign key entropy
            (TextEncoder_encode (signatureInput encodedHeader encodedPayload))))
      = Ok encodedSignature ∧
    signMessage am payload now_iat now_exp entropy
      = Ok (signatureInput encodedHeader encodedPayload ++ js "." ++ encodedSignature) ∧
    obj_get (js "iat") full = Some (JNum (now_iat / 1000)) ∧
    obj_get (js "exp") full = Some (JNum (now_exp / 1000 + 300)) ∧
    obj_get (js "instance_id") full = Some (string_or_null (instanceId am)) ∧
    is_Some (instanceId am) ∧
    (now_iat / 1000 = now_exp / 1000 →
     obj_get (js "exp") full = Some (JNum (now_iat / 1000 + 300))).
Proof.
  intros am full Hlatin.
  destruct (initialize_loads_identity g store am0) as [[key Hkey] Hid].
  fold am in Hkey, Hid.
  destruct (fullPayload_claims am payload now_iat now_exp) as (Hiat & Hexp & Hinst).
  fold full in Hiat, Hexp, Hinst.
  assert (∃ h, _base64UrlEncode (OfString (JSON_stringify header)) = Ok h)
    as [h Hh] by (eexists; vm_compute; reflexivity).
  assert (∃ p, _base64UrlEncode (OfString (JSON_stringify (JObj full))) = Ok p)
    as [p Hp].
  { unfold _base64UrlEncode, btoa. rewrite Hlatin. by eexists. }
  assert (∃ s, _base64UrlEncode
                 (OfArrayBuffer
                    (subtle_sign key entropy
                       (TextEncoder_encode (signatureInput h p)))) = Ok s)
    as [s Hs].
  { unfold _base64UrlEncode. rewrite btoa_bytes. by eexists. }
  exists key, h, p, s. repeat split; try done.
  - unfold signMessage. rewrite Hkey. cbv zeta. fold full.
    rewrite Hh. cbn [JS.bind]. rewrite Hp. cbn [JS.bind]. by rewrite Hs.
  - intros Heq. by rewrite Heq.
Qed.

End WithCrypto.

Lemma signMessage_without_key_throws_witness :
  @privateKey ClientSamples.toy_crypto constructor = None ∧
  @signMessage ClientSamples.toy_crypto constructor ClientSamples.state_payload
    1999 2000 7%N = Throw "No private key available" ∧
  ∀ token,
    @signMessage ClientSamples.toy_crypto constructor ClientSamples.state_payload
      1999 2000 7%N ≠ Ok token.
Proof.
  split; [reflexivity|].
  apply (@signMessage_without_key_throws ClientSamples.toy_crypto). reflexivity.
Defined.

Lemma token_of_signMessage_witness :
  let am := (@initialize ClientSamples.toy_crypto ClientSamples.new_identity
               ClientSamples.empty_store constructor).1 in
  let full := fullPayload am ClientSamples.state_payload 1999 2000 in
  forallb (λ c, c <? 256)%N (JSON_stringify (JObj full)) = true ∧
  ∃ key encodedHeader encodedPayload encodedSignature,
    privateKey am = Some key ∧
    _base64UrlEncode (OfString (JSON_stringify header)) = Ok encodedHeader ∧
    _base64UrlEncode (OfString (JSON_stringify (JObj full))) = Ok encodedPayload ∧
    _base64UrlEncode
      (OfArrayBuffer
         (subtle_sign key (7%N : @Entropy ClientSamples.toy_crypto)
            (TextEncoder_encode (signatureInput encodedHeader encodedPayload))))
      = Ok encodedSignature ∧
    signMessage am ClientSamples.state_payload 1999 2000 7%N
      = Ok (signatureInput encodedHeader encodedPayload ++ js "." ++ encodedSignature) ∧
    obj_get (js "iat") full = Some (JNum (1999 / 1000)) ∧
    obj_get (js "exp") full = Some (JNum (2000 / 1000 + 300)) ∧
    obj_get (js "instance_id") full = Some (string_or_null (instanceId am)) ∧
    is_Some (instanceId am) ∧
    (1999 / 1000 = 2000 / 1000 →
     obj_get (js "exp") full = Some (JNum (1999 / 1000 + 300))).
Proof.
  split; [vm_compute; reflexivity|].
  apply (@token_of_signMessage ClientSamples.toy_crypto). vm_compute. reflexivity.
Defined.

(** C5 (as stated) fails when the clock passes a second boundary between
    the two readings: the token is issued at second 1 and expires at second
    302, not 301. *)
Lemma expiry_is_not_issue_time_plus_ttl :
  let am := (@initialize ClientSamples.toy_crypto ClientSamples.new_identity
               ClientSamples.empty_store constructor).1 in
  let full := fullPayload am ClientSamples.state_payload 1999 2000 in
  obj_get (js "iat") full = Some (JNum 1) ∧
  obj_get (js "exp") full = Some (JNum 302) ∧
  302 ≠ 1 + 300 ∧
  ∃ token, signMessage am ClientSamples.state_payload 1999 2000 7%N = Ok token.
Proof.
  vm_compute. repeat split; [congruence|]. eexists. reflexivity.
Qed.

(** A meeting name outside Latin-1 makes [btoa], and so [signMessage],
    throw. *)
Example signMessage_rejects_non_latin1 :
  let am := (@initialize ClientSamples.toy_crypto ClientSamples.new_identity
               ClientSamples.empty_store constructor).1 in
  signMessage am
    [ (js "type", JStr (js "state"));
      (js "data", JObj [ (js "meeting_name", JStr [20250; 35758]%N) ]) ]
    1999 2000 7%N = Throw "InvalidCharacterError".
Proof. vm_compute. reflexivity. Qed.

End AuthProps.

(** ** Properties of the session client *)

Module ClientProps.
Import StreamControllerClient.

(** *** Relations between the world before and after a computation *)

Section Respects.
Context `{WebCrypto} (R : relation World) `{!PreOrder R}.

Lemma respects_ret {A} (a : A) : respects R (ret a).
Proof. intros w. reflexivity. Qed.

Lemma respects_throw {A} (message : string) : respects R (@throw _ A message).
Proof. intros w. reflexivity. Qed.

Lemma respects_read {A} (f : World → A) : respects R (read f).
Proof. intros w. reflexivity. Qed.

Lemma respects_lift {A} (r : Result A) : respects R (lift r).
Proof. intros w. reflexivity. Qed.

Lemma respects_update (f : World → World) :
  (∀ w, R w (f w)) → respects R (update f).
Proof. intros Hf w. apply Hf. Qed.

Lemma respects_bind {A B} (m : M A) (k : A → M B) :
  respects R m → (∀ a, respects R (k a)) → respects R (bindM m k).
Proof.
  intros Hm Hk w. unfold bindM. specialize (Hm w).
  destruct (m w) as [[a|message] w']; simpl in *; [|done].
  etrans; [exact Hm|apply Hk].
Qed.

Lemma respects_try_catch {A} (m : M A) (handler : string → M A) :
  respects R m → (∀ message, respects R (handler message)) →
  respects R (try_catch m handler).
Proof.
  intros Hm Hh w. unfold try_catch. specialize (Hm w).
  destruct (m w) as [[a|message] w']; simpl in *; [done|].
  etrans; [exact Hm|apply Hh].
Qed.

Lemma respects_detached (m : M unit) : respects R m → respects R (detached m).
Proof.
  intros Hm. apply respects_try_catch; [done|]. intros _. apply respects_ret.
Qed.

End Respects.

Ltac respects_step :=
  lazymatch goal with
  | |- respects _ (bindM _ _) => apply respects_bind; [apply _| |intros ?]
  | |- respects _ (ret _) => apply respects_ret; apply _
  | |- respects _ (throw _) => apply respects_throw; apply _
  | |- respects _ (read _) => apply respects_read; apply _
  | |- respects _ (lift _) => apply respects_lift; apply _
  | |- respects _ (try_catch _ _) => apply respects_try_catch; [apply _| |intros ?]
  | |- respects _ (detached _) => apply respects_detached; [apply _|]
  | |- respects _ (match ?x with _ => _ end) => destruct x
  end.

Section FramedFunctions.
Context `{WebCrypto} (R : relation World) `{!Framed R}.

Lemma console_write_respects level text : respects R (console_write level text).
Proof. apply respects_update. intros w. apply framed_console. Qed.

Lemma socket_send_respects frame : respects R (socket_send frame).
Proof. apply respects_update. intros w. apply framed_transport. Qed.

Lemma emit_respects e : is_command e = false → respects R (_emit e).
Proof.
  intros He. apply respects_update. intros w. by apply framed_event.
Qed.

Lemma markUnauthorized_respects : respects R PairingManager.markUnauthorized.
Proof. apply respects_update. intros w. apply framed_pairing. Qed.

Lemma send_respects message : respects R (WebSocketManager.send message).
Proof.
  unfold WebSocketManager.send.
  repeat first [apply socket_send_respects | respects_step].
Qed.

Lemma isConnected_respects : respects R WebSocketManager.isConnected.
Proof. unfold WebSocketManager.isConnected. repeat respects_step. Qed.

Lemma isAuthorized_respects : respects R PairingManager.isAuthorized.
Proof. unfold PairingManager.isAuthorized. repeat respects_step. Qed.

Lemma authenticate_respects o : respects R (PairingManager.authenticate o).
Proof.
  unfold PairingManager.authenticate.
  repeat first [apply console_write_respects | apply send_respects
               | apply respects_update; intros ?; apply framed_pairing
               | respects_step].
Qed.

Lemma createSignedMessage_respects o payload :
  respects R (_createSignedMessage o payload).
Proof. unfold _createSignedMessage. repeat respects_step. Qed.

Lemma heartbeat_callback_respects o : respects R (heartbeat_callback o).
Proof.
  unfold heartbeat_callback.
  repeat first [apply isConnected_respects | apply isAuthorized_respects
               | apply createSignedMessage_respects | apply send_respects
               | apply console_write_respects | respects_step].
Qed.

Lemma sendState_respects o state : respects R (sendState o state).
Proof.
  unfold sendState.
  repeat first [apply isAuthorized_respects | apply createSignedMessage_respects
               | apply send_respects | respects_step].
Qed.

Lemma onWebSocketConnected_respects o : respects R (_onWebSocketConnected o).
Proof.
  unfold _onWebSocketConnected.
  repeat first [apply console_write_respects | apply authenticate_respects
               | apply emit_respects; reflexivity | respects_step].
Qed.

Lemma connect_timeout_callback_respects :
  respects R WebSocketManager.connect_timeout_callback.
Proof.
  unfold WebSocketManager.connect_timeout_callback.
  repeat first [apply respects_update; intros ?; apply framed_ws
               | respects_step].
Qed.

End FramedFunctions.

Ltac framed_leaf :=
  first
    [ apply console_write_respects | apply socket_send_respects
    | apply markUnauthorized_respects | apply send_respects
    | apply isConnected_respects | apply isAuthorized_respects
    | apply authenticate_respects | apply createSignedMessage_respects
    | apply heartbeat_callback_respects | apply sendState_respects
    | apply onWebSocketConnected_respects
    | apply connect_timeout_callback_respects
    | apply emit_respects; [|reflexivity] ];
  try apply _.

Section ClientFunctions.
Context `{WebCrypto} (R : relation World) `{!ClientRelation R}.

Ltac client_leaf :=
  first [ apply client_start | apply client_stop | apply client_ws_disconnect
        | apply client_schedule | apply client_ws_connect
        | apply client_timer_fired | framed_leaf ].

Lemma onWebSocketDisconnected_respects reason :
  respects R (_onWebSocketDisconnected reason).
Proof. unfold _onWebSocketDisconnected. repeat first [client_leaf | respects_step]. Qed.

Lemma onPairingAuthorized_respects : respects R _onPairingAuthorized.
Proof. unfold _onPairingAuthorized. repeat first [client_leaf | respects_step]. Qed.

Lemma pairing_handlers_respects event : respects R (pairing_handlers event).
Proof.
  destruct event; simpl;
    first [apply onPairingAuthorized_respects | framed_leaf].
Qed.

Lemma pairing_emit_respects event :
  respects R (PairingManager._emit pairing_handlers event).
Proof.
  unfold PairingManager._emit.
  repeat first [apply pairing_handlers_respects | client_leaf | respects_step].
Qed.

Lemma handleMessage_respects message :
  respects R (PairingManager.handleMessage pairing_handlers message).
Proof.
  unfold PairingManager.handleMessage.
  repeat first [ apply pairing_emit_respects
               | apply respects_update; intros ?; apply framed_pairing
               | client_leaf | respects_step ].
Qed.

Lemma handleServerError_respects o message :
  respects R (_handleServerError o message).
Proof.
  unfold _handleServerError. repeat first [client_leaf | respects_step].
Qed.

Lemma handleServerMessage_respects o message :
  is_string (obj_get (js "type") message) (js "command") = false →
  respects R (_handleServerMessage o message).
Proof.
  intros Htype. unfold _handleServerMessage.
  destruct (obj_get (js "type") message) as [[| | |t| |]|];
    try framed_leaf.
  simpl in Htype. apply bool_decide_eq_false in Htype.
  rewrite decide_False by done.
  repeat first [ apply handleServerError_respects | apply handleMessage_respects
               | client_leaf | respects_step ].
Qed.

Lemma disconnect_respects : respects R disconnect.
Proof. unfold disconnect. repeat first [client_leaf | respects_step]. Qed.

Lemma connect_respects o : respects R (connect o).
Proof.
  unfold connect.
  repeat first [ client_leaf | respects_step
               | apply respects_update; intros w;
                 destruct (AuthManager.initialize _ _ _); apply framed_auth ].
Qed.

Lemma react_respects o i :
  is_command_frame i = false → respects R (react o i).
Proof.
  destruct i as [| | | |[message|]| | | | |]; simpl; intros Hi.
  - apply connect_respects.
  - framed_leaf.
  - apply disconnect_respects.
  - unfold WebSocketManager.onopen, WebSocketManager._emit; simpl.
    repeat first [client_leaf | respects_step].
  - unfold WebSocketManager._emit.
    repeat first [by apply handleServerMessage_respects | client_leaf | respects_step].
  - framed_leaf.
  - unfold WebSocketManager.onerror, WebSocketManager._emit; simpl.
    repeat first [client_leaf | respects_step].
  - unfold WebSocketManager.onclose, WebSocketManager._emit; simpl.
    repeat first [apply onWebSocketDisconnected_respects | client_leaf | respects_step].
  - apply respects_update. intros w. destruct (ws w); [apply framed_ws|reflexivity].
  - apply client_timer_fired.
  - apply respects_update. apply client_handle_taken.
Qed.

(** Every input other than a 'command' frame is a step within [R]. *)
Lemma step_respects w o i : is_command_frame i = false → R w (step w (o, i)).
Proof. intros Hi. by apply react_respects. Qed.

End ClientFunctions.

(** *** Commands *)

Section Commands.
Context `{WebCrypto}.

#[local] Instance same_commands_preorder : PreOrder same_commands.
Proof.
  split; [by intros w|]. intros a b c Hab Hbc. unfold same_commands in *. congruence.
Qed.

Lemma commands_app (evs : list ClientEvent) (e : ClientEvent) :
  is_command e = false → commands (evs ++ [e]) = commands evs.
Proof.
  intros He. unfold commands. rewrite List.filter_app. simpl. rewrite He.
  apply app_nil_r.
Qed.

#[local] Instance same_commands_framed : Framed same_commands.
Proof.
  split; try (intros; reflexivity); [apply _|].
  intros e w He. unfold same_commands. simpl. by apply commands_app.
Qed.

Ltac same_events :=
  intros w; unfold same_commands; f_equal;
  unfold _startHeartbeat, _stopHeartbeat, WebSocketManager.disconnect,
    WebSocketManager._scheduleReconnect, WebSocketManager.connect,
    WebSocketManager.reconnect_callback, console_write, set_timer, clear_timer,
    bindM, read, update, ret;
  simpl; repeat case_match; simplify_eq/=; reflexivity.

#[local] Instance same_commands_client : ClientRelation same_commands.
Proof.
  split; [apply _| | | | | | |].
  - same_events.
  - same_events.
  - same_events.
  - same_events.
  - same_events.
  - intros o handle. unfold timer_fired.
    apply respects_bind; [apply _|apply respects_read; apply _|]. intros table.
    destruct (table !! handle) as [[| |]|].
    + apply heartbeat_callback_respects. apply _.
    + same_events.
    + apply respects_bind; [apply _| |intros ?].
      * same_events.
      * apply connect_timeout_callback_respects. apply _.
    + apply respects_ret. apply _.
  - intros w. reflexivity.
Qed.

Lemma other_inputs_emit_no_command w o i :
  is_command_frame i = false →
  commands (events (step w (o, i))) = commands (events w).
Proof. apply (step_respects same_commands). Qed.

End Commands.

Section CommandFrames.
Context `{WebCrypto}.

Lemma handle_command (o : Oracle) (message : list (jsstring * json)) (w : World) :
  is_string (obj_get (js "type") message) (js "command") = true →
  _handleServerMessage o message w =
    (Ok tt,
     set_events
       (events w ++ [Command (obj_get (js "action") message)
                             (obj_get (js "data") message)]) w).
Proof.
  intros Htype. unfold _handleServerMessage.
  destruct (obj_get (js "type") message) as [[| | |t| |]|]; try discriminate.
  simpl in Htype. apply bool_decide_eq_true in Htype.
  by rewrite decide_True.
Qed.

Lemma run_emits_no_command (w : World) (inputs : list (Oracle * Input)) :
  Forall (λ oi, is_command_frame oi.2 = false) inputs →
  commands (events (run w inputs)) = commands (events w).
Proof.
  intros Hall. revert w. induction Hall as [|[o i] inputs Hi _ IH]; intros w.
  - done.
  - simpl. rewrite IH. by apply other_inputs_emit_no_command.
Qed.

(** C2 (as the code has it): in every pairing phase a frame of type
    'command' is emitted at once to the 'command' handlers and changes
    nothing else: it is neither logged nor kept; the inputs that follow,
    an authorization among them, emit no 'command' event unless they are
    'command' frames themselves. *)
Theorem command_frames_fire_at_once
    (o : Oracle) (w : World) (message : list (jsstring * json))
    (inputs : list (Oracle * Input)) :
  is_string (obj_get (js "type") message) (js "command") = true →
  Forall (λ oi, is_command_frame oi.2 = false) inputs →
  let fired := Command (obj_get (js "action") message)
                       (obj_get (js "data") message) in
  let w' := step w (o, OnMessage (Some message)) in
  w' = set_events (events w ++ [fired]) w ∧
  commands (events (run w' inputs)) = commands (events w) ++ [fired].
Proof.
  intros Htype Hinputs fired w'.
  assert (w' = set_events (events w ++ [fired]) w) as Hw'.
  { unfold w', step, exec; simpl.
    unfold WebSocketManager._emit, detached, try_catch.
    by rewrite handle_command. }
  split; [done|].
  rewrite run_emits_no_command by done. rewrite Hw'. simpl.
  unfold commands. by rewrite List.filter_app.
Qed.

End CommandFrames.

Lemma command_frames_fire_at_once_witness :
  let fired := Command (Some (JStr (js "toggle_mic"))) None in
  let w' := @step ClientSamples.toy_crypto ClientSamples.fresh_client
              (ClientSamples.oracle, OnMessage (Some ClientSamples.command_frame)) in
  w' = set_events (events ClientSamples.fresh_client ++ [fired]) ClientSamples.fresh_client ∧
  commands (events (run w'
     [ (ClientSamples.oracle, OnMessage (Some ClientSamples.handshake_success)) ]))
  = commands (events ClientSamples.fresh_client) ++ [fired].
Proof.
  apply (@command_frames_fire_at_once ClientSamples.toy_crypto
           ClientSamples.oracle ClientSamples.fresh_client ClientSamples.command_frame).
  - vm_compute. reflexivity.
  - repeat constructor.
Defined.

(** C2 (as stated) fails: while the phase is 'unauthorized' a 'command'
    frame is neither dropped nor logged, it reaches the 'command'
    handlers. *)
Lemma command_before_authorization_is_not_dropped :
  let w' := @step ClientSamples.toy_crypto ClientSamples.fresh_client
              (ClientSamples.oracle, OnMessage (Some ClientSamples.command_frame)) in
  pairing_state ClientSamples.fresh_client = unauthorized ∧
  events w' = [Command (Some (JStr (js "toggle_mic"))) None] ∧
  console w' = console ClientSamples.fresh_client.
Proof. vm_compute. repeat split. Qed.

(** *** Sending state *)

Section SendState.
Context `{WebCrypto}.

(** C6: while the phase is not 'authorized', [sendState] throws the
    'Not authorized' error and leaves the world, the transport included, as
    it was; in the phase 'authorized' it returns normally exactly when the
    message was signed and the socket is open, and then its only effect is
    that the serialized signed message was passed to the socket. *)
Theorem sendState_contract (o : Oracle) (state : json) (w : World) :
  let payload := {| type := js "state"; data := state |} in
  let signed :=
    AuthManager.signMessage (auth w) (payload_props payload)
      (now_iat o) (now_exp o) (entropy o) in
  let handed token :=
    set_transport
      (transport w ++ [JSON_stringify (signed_message w payload token)]) w in
  (pairing_state w ≠ authorized →
   sendState o state w = (Throw "Not authorized. Pairing required.", w)) ∧
  (pairing_state w = authorized →
   ∀ w', sendState o state w = (Ok tt, w') →
         ∃ token, signed = Ok token ∧ ws w = Some OPEN ∧ w' = handed token) ∧
  (pairing_state w = authorized → ws w = Some OPEN →
   ∀ token, signed = Ok token → sendState o state w = (Ok tt, handed token)).
Proof.
  intros payload signed handed.
  unfold sendState, PairingManager.isAuthorized, _createSignedMessage,
    WebSocketManager.send, socket_send, bindM, read, ret, throw, lift, update.
  subst handed signed payload. cbv beta.
  split; [|split].
  - intros Hphase. by rewrite bool_decide_eq_false_2.
  - intros Hphase w'. rewrite bool_decide_eq_true_2 by done. cbn [negb].
    destruct (AuthManager.signMessage _ _ _ _ _) as [token|message];
      [|discriminate].
    destruct (ws w) as [[| | |]|]; try discriminate.
    intros [= <-]. by exists token.
  - intros Hphase Hopen token Hsigned.
    rewrite bool_decide_eq_true_2 by done. cbn [negb].
    by rewrite Hsigned, Hopen.
Qed.

End SendState.

Lemma sendState_contract_witness :
  let state := MeetingTabStateManager.state_to_json Samples.standup in
  @sendState ClientSamples.toy_crypto ClientSamples.oracle state ClientSamples.fresh_client
    = (Throw "Not authorized. Pairing required.", ClientSamples.fresh_client) ∧
  ∃ token,
    @sendState ClientSamples.toy_crypto ClientSamples.oracle state
      ClientSamples.authorized_client
    = (Ok tt,
       set_transport
         (transport ClientSamples.authorized_client ++
            [JSON_stringify
               (signed_message ClientSamples.authorized_client
                  {| type := js "state"; data := state |} token)])
         ClientSamples.authorized_client).
Proof.
  intros state. split.
  - apply (@sendState_contract ClientSamples.toy_crypto). vm_compute. congruence.
  - eexists.
    apply (@sendState_contract ClientSamples.toy_crypto ClientSamples.oracle state
             ClientSamples.authorized_client);
      vm_compute; reflexivity.
Defined.

(** *** The heartbeat timer *)

Section TimerTable.

Lemma owned_set_heartbeat table next reconnect :
  owned table next None reconnect →
  owned (<[next := HeartbeatInterval]> table) (Pos.succ next) (Some next) reconnect.
Proof.
  intros (Hhb & Hrc & Hfresh). split; [|split]; intros h.
  - destruct (decide (next = h)) as [->|Hne].
    + by rewrite lookup_insert_eq.
    + rewrite lookup_insert_ne by done. rewrite Hhb. split; [done|congruence].
  - intros Hr. rewrite lookup_insert_ne; [by apply Hrc|].
    intros <-. specialize (Hfresh next). rewrite (Hrc _ Hr) in Hfresh.
    specialize (Hfresh (mk_is_Some _ _ eq_refl)). lia.
  - intros [k Hk]. apply lookup_insert_Some in Hk as [[<- _]|[_ Hk]]; [lia|].
    specialize (Hfresh h (mk_is_Some _ _ Hk)). lia.
Qed.

Lemma owned_clear_heartbeat table next handle reconnect :
  owned table next (Some handle) reconnect →
  owned (delete handle table) next None reconnect.
Proof.
  intros (Hhb & Hrc & Hfresh). split; [|split]; intros h.
  - rewrite lookup_delete_Some, Hhb. split; [|done]. intros [Hne [= ->]]. done.
  - intros Hr. rewrite lookup_delete_ne; [by apply Hrc|].
    intros <-. pose proof (proj2 (Hhb handle) eq_refl) as Hh.
    rewrite (Hrc _ Hr) in Hh. discriminate.
  - intros [k Hk]. apply lookup_delete_Some in Hk as [_ Hk].
    apply Hfresh. by eexists.
Qed.

Lemma owned_set_other table next heartbeat reconnect kind :
  kind ≠ HeartbeatInterval →
  owned table next heartbeat reconnect →
  owned (<[next := kind]> table) (Pos.succ next) heartbeat reconnect.
Proof.
  intros Hkind (Hhb & Hrc & Hfresh). split; [|split]; intros h.
  - destruct (decide (next = h)) as [->|Hne].
    + rewrite lookup_insert_eq. split; [congruence|].
      intros Hh. apply Hhb in Hh.
      specialize (Hfresh h (mk_is_Some _ _ Hh)). lia.
    + rewrite lookup_insert_ne by done. apply Hhb.
  - intros Hr. rewrite lookup_insert_ne; [by apply Hrc|].
    intros <-. specialize (Hfresh next). rewrite (Hrc _ Hr) in Hfresh.
    specialize (Hfresh (mk_is_Some _ _ eq_refl)). lia.
  - intros [k Hk]. apply lookup_insert_Some in Hk as [[<- _]|[_ Hk]]; [lia|].
    specialize (Hfresh h (mk_is_Some _ _ Hk)). lia.
Qed.

Lemma owned_set_reconnect table next heartbeat :
  owned table next heartbeat None →
  owned (<[next := ReconnectTimeout]> table) (Pos.succ next) heartbeat (Some next).
Proof.
  intros Ho. apply (owned_set_other _ _ _ _ ReconnectTimeout) in Ho; [|done].
  destruct Ho as (Hhb & _ & Hfresh). split; [done|]. split; [|done].
  intros h [= <-]. apply lookup_insert_eq.
Qed.

Lemma owned_clear_other table next heartbeat reconnect handle kind :
  table !! handle = Some kind → kind ≠ HeartbeatInterval →
  owned table next heartbeat reconnect →
  owned (delete handle table) next heartbeat None.
Proof.
  intros Hh Hkind (Hhb & Hrc & Hfresh). split; [|split]; intros h.
  - rewrite lookup_delete_Some, <- Hhb. split; [by intros [_ ?]|].
    intros Hk. split; [|done]. intros <-. congruence.
  - discriminate.
  - intros [k Hk]. apply lookup_delete_Some in Hk as [_ Hk].
    apply Hfresh. by eexists.
Qed.

Lemma owned_clear_connect_timeout table next heartbeat reconnect handle :
  table !! handle = Some ConnectTimeout →
  owned table next heartbeat reconnect →
  owned (delete handle table) next heartbeat reconnect.
Proof.
  intros Hh Ho.
  assert (owned (delete handle table) next heartbeat None) as (Hhb & _ & Hfresh)
    by (by eapply owned_clear_other; [exact Hh| |exact Ho]).
  split; [done|]. split; [|done].
  intros h Hr. destruct Ho as (_ & Hrc & _).
  rewrite lookup_delete_ne; [by apply Hrc|]. intros <-.
  rewrite (Hrc _ Hr) in Hh. discriminate.
Qed.

Lemma owned_next table next heartbeat reconnect :
  owned table next heartbeat reconnect →
  owned table (Pos.succ next) heartbeat reconnect.
Proof.
  intros (Hhb & Hrc & Hfresh). split; [done|]. split; [done|].
  intros h Hh. specialize (Hfresh h Hh). lia.
Qed.

(** With the timers owned, the heartbeat timers are the one the client
    holds, if it holds one. *)
Lemma owned_heartbeat_timers table next heartbeat reconnect :
  owned table next heartbeat reconnect →
  filter (λ kv : positive * TimerKind, kv.2 = HeartbeatInterval) table
  = match heartbeat with
    | Some h => {[ h := HeartbeatInterval ]}
    | None => ∅
    end.
Proof.
  intros (Hhb & _ & _). apply map_eq. intros h. apply option_eq. intros k.
  rewrite map_lookup_filter_Some. simpl. destruct heartbeat as [h'|].
  - rewrite lookup_singleton_Some. split.
    + intros [Hk ->]. apply Hhb in Hk as [= ->]. done.
    + intros [<- <-]. split; [|done]. by apply Hhb.
  - rewrite lookup_empty. split; [|done]. intros [Hk ->].
    apply Hhb in Hk. discriminate.
Qed.

End TimerTable.

Section Heartbeat.
Context `{WebCrypto}.

#[local] Instance keeps_timers_owned_preorder : PreOrder keeps_timers_owned.
Proof.
  split; [intros w Hw; exact Hw|]. intros a b c Hab Hbc Ha. by apply Hbc, Hab.
Qed.

#[local] Instance keeps_timers_owned_framed : Framed keeps_timers_owned.
Proof. split; try (intros; intros Hw; exact Hw). apply _. Qed.

Lemma startHeartbeat_owned (w : World) :
  timers_owned w → timers_owned (exec _startHeartbeat w).
Proof.
  unfold timers_owned, exec, _startHeartbeat, bindM, read, console_write,
    set_timer, update. simpl.
  destruct (heartbeatTimer w) eqn:Hhb; simpl; [by rewrite Hhb|].
  apply owned_set_heartbeat.
Qed.

Lemma stopHeartbeat_owned (w : World) :
  timers_owned w → timers_owned (exec _stopHeartbeat w).
Proof.
  unfold timers_owned, exec, _stopHeartbeat, bindM, read, console_write,
    clear_timer, update. simpl.
  destruct (heartbeatTimer w) eqn:Hhb; simpl; [|by rewrite Hhb].
  apply owned_clear_heartbeat.
Qed.

Lemma ws_disconnect_owned (w : World) :
  timers_owned w → timers_owned (exec WebSocketManager.disconnect w).
Proof.
  unfold timers_owned, exec, WebSocketManager.disconnect, bindM, read,
    console_write, clear_timer, update, ret. simpl.
  destruct (reconnectTimer w) as [handle|] eqn:Hrc; simpl;
    destruct (ws w); simpl; rewrite ?Hrc; try done;
    intros Ho; pose proof Ho as (_ & Hr & _);
    by eapply owned_clear_other; [apply (Hr handle eq_refl)| |exact Ho].
Qed.

Lemma scheduleReconnect_owned (w : World) :
  timers_owned w → timers_owned (exec WebSocketManager._scheduleReconnect w).
Proof.
  unfold timers_owned, exec, WebSocketManager._scheduleReconnect, bindM, read,
    console_write, set_timer, update, ret. simpl.
  destruct (reconnectTimer w) eqn:Hrc; simpl; [by rewrite Hrc|].
  apply owned_set_reconnect.
Qed.

Lemma ws_connect_owned (w : World) :
  timers_owned w → timers_owned (exec WebSocketManager.connect w).
Proof.
  unfold timers_owned, exec, WebSocketManager.connect, bindM, read,
    console_write, set_timer, update, ret. simpl.
  by apply owned_set_other.
Qed.

Lemma timer_fired_owned (o : Oracle) (handle : positive) (w : World) :
  timers_owned w → timers_owned (exec (timer_fired o handle) w).
Proof.
  intros Ho. unfold exec, timer_fired, bindM, read. simpl.
  destruct (timers w !! handle) as [[| |]|] eqn:Hh; simpl.
  - by apply (heartbeat_callback_respects keeps_timers_owned).
  - revert Ho.
    unfold timers_owned, WebSocketManager.reconnect_callback, WebSocketManager.connect,
      bindM, read, console_write, set_timer, clear_timer, update, ret. simpl.
    intros Ho. apply owned_set_other; [done|].
    by eapply owned_clear_other; [exact Hh| |exact Ho].
  - apply (connect_timeout_callback_respects keeps_timers_owned).
    unfold timers_owned. simpl. by apply owned_clear_connect_timeout.
  - done.
Qed.

#[local] Instance keeps_timers_owned_client : ClientRelation keeps_timers_owned.
Proof.
  split; [apply _| | | | | | |].
  - intros w Hw. by apply startHeartbeat_owned.
  - intros w Hw. by apply stopHeartbeat_owned.
  - intros w Hw. by apply ws_disconnect_owned.
  - intros w Hw. by apply scheduleReconnect_owned.
  - intros w Hw. by apply ws_connect_owned.
  - intros o handle w Hw. by apply timer_fired_owned.
  - intros w. unfold keeps_timers_owned, timers_owned. simpl. apply owned_next.
Qed.

Lemma step_owned (w : World) (o : Oracle) (i : Input) :
  timers_owned w → timers_owned (step w (o, i)).
Proof.
  destruct (is_command_frame i) eqn:Hi.
  - destruct i as [| | | |[message|]| | | | |]; try discriminate.
    simpl in Hi. unfold step, exec; simpl.
    unfold WebSocketManager._emit, detached, try_catch.
    by rewrite handle_command.
  - by apply (step_respects keeps_timers_owned).
Qed.

Lemma constructor_owned extension_id persisted first_handle :
  timers_owned (constructor extension_id persisted first_handle).
Proof.
  split; [|split]; simpl; intros h.
  - by rewrite lookup_empty.
  - discriminate.
  - rewrite lookup_empty. by intros [? ?].
Qed.

Lemma run_owned (w : World) (inputs : list (Oracle * Input)) :
  timers_owned w → timers_owned (run w inputs).
Proof.
  revert w. induction inputs as [|[o i] inputs IH]; intros w Hw; simpl; [done|].
  apply IH. by apply step_owned.
Qed.

Lemma heartbeat_timers_owned (w : World) :
  timers_owned w →
  heartbeat_timers w = match heartbeatTimer w with Some h => [h] | None => [] end.
Proof.
  intros Ho. unfold heartbeat_timers.
  rewrite (owned_heartbeat_timers _ _ _ _ Ho).
  destruct (heartbeatTimer w).
  - by rewrite map_to_list_singleton.
  - by rewrite map_to_list_empty.
Qed.

Lemma stopHeartbeat_clears (w : World) :
  heartbeatTimer (exec _stopHeartbeat w) = None.
Proof.
  unfold exec, _stopHeartbeat, bindM, read, console_write, clear_timer, update.
  simpl. destruct (heartbeatTimer w) eqn:Hhb; simpl; by rewrite ?Hhb.
Qed.

(** C10: in every world the client reaches, at most one heartbeat timer
    is active and it is the one held in [heartbeatTimer];
    [_startHeartbeat] changes nothing while a timer is held;
    [_stopHeartbeat], [disconnect] and the 'disconnected' handler leave no
    heartbeat timer. *)
Theorem at_most_one_heartbeat_timer
    (extension_id : jsstring) (persisted : AuthManager.KeyStore)
    (first_handle : positive) (inputs : list (Oracle * Input))
    (reason : jsstring) :
  let w := run (constructor extension_id persisted first_handle) inputs in
  (length (heartbeat_timers w) ≤ 1)%nat ∧
  heartbeat_timers w = match heartbeatTimer w with Some h => [h] | None => [] end ∧
  (match heartbeatTimer w with
   | Some _ => exec _startHeartbeat w = w
   | None => ∃ h, heartbeat_timers (exec _startHeartbeat w) = [h]
   end) ∧
  heartbeat_timers (exec _stopHeartbeat w) = [] ∧
  heartbeatTimer (exec _stopHeartbeat w) = None ∧
  heartbeat_timers (exec disconnect w) = [] ∧
  heartbeat_timers (exec (_onWebSocketDisconnected reason) w) = [].
Proof.
  intros w.
  assert (timers_owned w) as Ho by apply run_owned, constructor_owned.
  pose proof (heartbeat_timers_owned w Ho) as Hlist.
  assert (∀ w0, timers_owned w0 → heartbeatTimer w0 = None →
                heartbeat_timers w0 = []) as Hnone.
  { intros w0 Ho0 Hhb. by rewrite (heartbeat_timers_owned w0 Ho0), Hhb. }
  split; [|split; [|split; [|split; [|split; [|split]]]]].
  - rewrite Hlist. destruct (heartbeatTimer w); simpl; lia.
  - done.
  - destruct (heartbeatTimer w) eqn:Hhb.
    + unfold exec, _startHeartbeat, bindM, read. simpl. by rewrite Hhb.
    + exists (next_timer w).
      rewrite (heartbeat_timers_owned _ (startHeartbeat_owned w Ho)).
      unfold exec, _startHeartbeat, bindM, read, console_write, set_timer, update.
      simpl. by rewrite Hhb.
  - apply Hnone; [by apply stopHeartbeat_owned|apply stopHeartbeat_clears].
  - apply stopHeartbeat_clears.
  - apply Hnone; [by apply (disconnect_respects keeps_timers_owned)|].
    unfold exec, disconnect, _stopHeartbeat, WebSocketManager.disconnect, bindM,
      read, console_write, clear_timer, update, ret. simpl.
    destruct (heartbeatTimer w) eqn:Hhb; simpl;
      destruct (reconnectTimer w); simpl; destruct (ws w); simpl;
      by rewrite ?Hhb.
  - apply Hnone;
      [by apply (onWebSocketDisconnected_respects keeps_timers_owned)|].
    unfold exec, _onWebSocketDisconnected, _stopHeartbeat,
      PairingManager.markUnauthorized, _emit, bindM, read, console_write,
      clear_timer, update, ret. simpl.
    destruct (heartbeatTimer w) eqn:Hhb; simpl; by rewrite ?Hhb.
Qed.

End Heartbeat.

(** Two approvals in a row start one heartbeat timer. *)
Example approved_twice_one_timer :
  @heartbeat_timers ClientSamples.toy_crypto ClientSamples.authorized_client = [2%positive] ∧
  events ClientSamples.authorized_client = [Connected; Connected].
Proof. vm_compute. done. Qed.

End ClientProps.

(** ** Further properties of signing and of the identity *)

Module AuthExtras.
Import AuthManager Base64Url.

#[local] Ltac Zify.zify_post_hook ::= Z.to_euclidean_division_equations.

(** *** The encoding *)

Lemma below_64 (P : N → Prop) `{∀ n, Decision (P n)} :
  bool_decide (Forall P (N.of_nat <$> seq 0 64)) = true →
  ∀ n, (n < 64)%N → P n.
Proof.
  intros Hall n Hn. apply bool_decide_eq_true in Hall.
  rewrite Forall_forall in Hall. apply Hall.
  apply list_elem_of_fmap. exists (N.to_nat n). split; [lia|].
  apply elem_of_seq. lia.
Qed.

Lemma replace_url (s : jsstring) :
  replace_all 47 95 (replace_all 43 45 s) = url_char <$> s.
Proof. unfold replace_all. rewrite map_map. done. Qed.

Lemma url_char_digit (n : N) : (n < 64)%N → url_char (b64_digit n) = url_digit n.
Proof.
  revert n. apply (below_64 (λ n, url_char (b64_digit n) = url_digit n)).
  vm_compute. reflexivity.
Qed.

Lemma url_digit_not_pad (n : N) : (n < 64)%N → url_digit n ≠ pad.
Proof.
  revert n. apply (below_64 (λ n, url_digit n ≠ pad)). vm_compute. reflexivity.
Qed.

Lemma url_digit_in_alphabet (n : N) : (n < 64)%N → in_alphabet (url_digit n).
Proof.
  revert n. apply (below_64 (λ n, in_alphabet (url_digit n))).
  vm_compute. reflexivity.
Qed.

Lemma digit_value_url_digit (n : N) : (n < 64)%N → digit_value (url_digit n) = n.
Proof.
  revert n. apply (below_64 (λ n, digit_value (url_digit n) = n)).
  vm_compute. reflexivity.
Qed.

Lemma strip_trailing_cons (c x : N) (s : jsstring) :
  x ≠ c → strip_trailing c (x :: s) = x :: strip_trailing c s.
Proof.
  intros Hx. simpl. destruct (strip_trailing c s); [|done].
  by rewrite (proj2 (N.eqb_neq x c)).
Qed.

(** Induction over a list three elements at a time. *)
Lemma list_ind3 {A} (P : list A → Prop) :
  P [] → (∀ a, P [a]) → (∀ a b, P [a; b]) →
  (∀ a b c rest, P rest → P (a :: b :: c :: rest)) →
  ∀ l, P l.
Proof.
  intros H0 H1 H2 H3 l.
  assert (P l ∧ (∀ a, P (a :: l)) ∧ ∀ a b, P (a :: b :: l)) as [? _]; [|done].
  induction l as [|x l (IH0 & IH1 & IH2)]; [by repeat split|].
  split; [apply IH1|]. split; [intros a; apply IH2|]. intros a b. by apply H3.
Qed.

(** What [_base64UrlEncode] computes from bytes. *)
Lemma encode_unpadded (bs : list N) :
  Forall (λ b, b < 256)%N bs →
  strip_trailing 61 (replace_all 47 95 (replace_all 43 45 (b64_groups bs)))
  = unpadded bs.
Proof.
  rewrite replace_url. revert bs. apply (list_ind3 (λ bs, _ → _ = _)).
  - done.
  - intros a Ha. apply Forall_cons in Ha as [Ha _]. cbn [b64_groups unpadded fmap list_fmap].
    rewrite !url_char_digit by lia.
    rewrite !strip_trailing_cons by (apply url_digit_not_pad; lia).
    done.
  - intros a b Hab. apply Forall_cons in Hab as [Ha Hb].
    apply Forall_cons in Hb as [Hb _]. cbn [b64_groups unpadded fmap list_fmap].
    rewrite !url_char_digit by lia.
    rewrite !strip_trailing_cons by (apply url_digit_not_pad; lia).
    done.
  - intros a b c rest IH Hall. apply Forall_cons in Hall as [Ha Hall].
    apply Forall_cons in Hall as [Hb Hall]. apply Forall_cons in Hall as [Hc Hall].
    cbn [b64_groups unpadded app]. rewrite !fmap_cons.
    rewrite !url_char_digit by lia.
    rewrite !strip_trailing_cons by (apply url_digit_not_pad; lia).
    by rewrite IH.
Qed.

Lemma unpadded_in_alphabet (bs : list N) :
  Forall (λ b, b < 256)%N bs → Forall in_alphabet (unpadded bs).
Proof.
  revert bs. apply (list_ind3 (λ bs, _ → Forall _ _)).
  - constructor.
  - intros a Ha. apply Forall_cons in Ha as [Ha _]. cbn [unpadded].
    repeat (constructor; [apply url_digit_in_alphabet; lia|]). constructor.
  - intros a b Hab. apply Forall_cons in Hab as [Ha Hb].
    apply Forall_cons in Hb as [Hb _]. cbn [unpadded].
    repeat (constructor; [apply url_digit_in_alphabet; lia|]). constructor.
  - intros a b c rest IH Hall. apply Forall_cons in Hall as [Ha Hall].
    apply Forall_cons in Hall as [Hb Hall]. apply Forall_cons in Hall as [Hc Hall].
    cbn [unpadded app].
    repeat (constructor; [apply url_digit_in_alphabet; lia|]). by apply IH.
Qed.

Lemma unpadded_length (bs : list N) :
  length (unpadded bs) = ((4 * length bs + 2) / 3)%nat.
Proof.
  revert bs. apply (list_ind3 (λ bs, length _ = _)); [done..|].
  intros a b c rest IH. cbn [unpadded app length]. rewrite IH.
  replace (4 * S (S (S (length rest))) + 2)%nat
    with ((4 * length rest + 2) + 4 * 3)%nat by lia.
  rewrite Nat.div_add by done. lia.
Qed.

Lemma decode_unpadded (bs : list N) :
  Forall (λ b, b < 256)%N bs → decode (unpadded bs) = bs.
Proof.
  revert bs. apply (list_ind3 (λ bs, _ → _ = _)).
  - done.
  - intros a Ha. apply Forall_cons in Ha as [Ha _]. cbn [unpadded decode].
    rewrite !digit_value_url_digit by lia. f_equal. lia.
  - intros a b Hab. apply Forall_cons in Hab as [Ha Hb].
    apply Forall_cons in Hb as [Hb _]. cbn [unpadded decode].
    rewrite !digit_value_url_digit by lia. f_equal; [lia|]. f_equal. lia.
  - intros a b c rest IH Hall. apply Forall_cons in Hall as [Ha Hall].
    apply Forall_cons in Hall as [Hb Hall]. apply Forall_cons in Hall as [Hc Hall].
    cbn [unpadded app decode].
    rewrite !digit_value_url_digit by lia. rewrite IH by done.
    cbn [app]. f_equal; [lia|]. f_equal; [lia|]. f_equal. lia.
Qed.

Lemma bytes_below_256 (bytes : list ascii) :
  Forall (λ b, b < 256)%N (map N_of_ascii bytes).
Proof.
  induction bytes as [|a bytes IH]; simpl; constructor; [|done].
  apply N_ascii_bounded.
Qed.

Lemma encode_bytes (bytes : list ascii) :
  _base64UrlEncode (OfArrayBuffer bytes) = Ok (unpadded (map N_of_ascii bytes)).
Proof.
  unfold _base64UrlEncode, btoa.
  assert (forallb (λ c, c <? 256)%N (map N_of_ascii bytes) = true) as ->.
  { apply forallb_forall. intros x Hx.
    pose proof (bytes_below_256 bytes) as Hall. rewrite Forall_forall in Hall.
    apply N.ltb_lt, Hall. by apply list_elem_of_In. }
  cbn [JS.bind]. f_equal. apply encode_unpadded, bytes_below_256.
Qed.

Lemma encode_string (s : jsstring) :
  _base64UrlEncode (OfString s) =
    if forallb (λ c, c <? 256)%N s then Ok (unpadded s)
    else Throw "InvalidCharacterError".
Proof.
  unfold _base64UrlEncode, btoa.
  destruct (forallb (λ c, c <? 256)%N s) eqn:Hs; cbn [JS.bind]; [|done].
  f_equal. apply encode_unpadded. apply Forall_forall. intros x Hx.
  rewrite forallb_forall in Hs. apply N.ltb_lt, Hs. by apply list_elem_of_In.
Qed.

Lemma alphabet_has_no_dot (s : list N) :
  Forall in_alphabet s → filter (λ c, c = 46%N) s = [].
Proof.
  induction 1 as [|c s Hc _ IH]; [done|].
  rewrite filter_cons. destruct (decide (c = 46%N)) as [->|]; [|done].
  exfalso. revert Hc. unfold in_alphabet.
  apply (proj1 (bool_decide_eq_false (46%N ∈ alphabet))). vm_compute. reflexivity.
Qed.

(** X1: a byte buffer is always encoded, into
    ceil(4n/3) characters of the URL-safe alphabet, without padding. *)
Theorem encoded_bytes_are_url_safe (bytes : list ascii) :
  ∃ encoded,
    _base64UrlEncode (OfArrayBuffer bytes) = Ok encoded ∧
    Forall in_alphabet encoded ∧
    length encoded = ((4 * length bytes + 2) / 3)%nat.
Proof.
  exists (unpadded (map N_of_ascii bytes)). split; [apply encode_bytes|].
  split; [apply unpadded_in_alphabet, bytes_below_256|].
  by rewrite unpadded_length, length_map.
Qed.

(** X2: the encoding of a byte buffer can be read back, so two buffers
    with the same encoding are the same buffer. *)
Theorem encoded_bytes_decode_back (bytes : list ascii) :
  (∃ encoded,
     _base64UrlEncode (OfArrayBuffer bytes) = Ok encoded ∧
     decode encoded = map N_of_ascii bytes) ∧
  ∀ other,
    _base64UrlEncode (OfArrayBuffer other) = _base64UrlEncode (OfArrayBuffer bytes) →
    other = bytes.
Proof.
  split.
  - exists (unpadded (map N_of_ascii bytes)). split; [apply encode_bytes|].
    apply decode_unpadded, bytes_below_256.
  - intros other. rewrite !encode_bytes. intros [= Heq].
    apply (f_equal decode) in Heq.
    rewrite !decode_unpadded in Heq by apply bytes_below_256.
    assert (∀ l : list ascii, map ascii_of_N (map N_of_ascii l) = l) as Hback.
    { intros l. induction l as [|a l IH]; simpl; [done|].
      by rewrite ascii_N_embedding, IH. }
    apply (f_equal (map ascii_of_N)) in Heq. by rewrite !Hback in Heq.
Qed.

(** X3: a string is encoded exactly when all its code units are below
    256; the encoding is then URL-safe and reads back as the string;
    otherwise [btoa] throws. *)
Theorem string_encoding_needs_latin1 (s : jsstring) :
  (Forall (λ c, c < 256)%N s →
   ∃ encoded,
     _base64UrlEncode (OfString s) = Ok encoded ∧
     Forall in_alphabet encoded ∧ decode encoded = s) ∧
  (¬ Forall (λ c, c < 256)%N s →
   _base64UrlEncode (OfString s) = Throw "InvalidCharacterError").
Proof.
  rewrite encode_string.
  destruct (forallb (λ c, c <? 256)%N s) eqn:Hs.
  - assert (Forall (λ c, c < 256)%N s) as Hall.
    { apply Forall_forall. intros x Hx. rewrite forallb_forall in Hs.
      apply N.ltb_lt, Hs. by apply list_elem_of_In. }
    split; [|done]. intros _. exists (unpadded s). split; [done|].
    split; [by apply unpadded_in_alphabet|by apply decode_unpadded].
  - split; [|done]. intros Hall. exfalso.
    assert (forallb (λ c, c <? 256)%N s = true) as Ht; [|congruence].
    apply forallb_forall. intros x Hx. rewrite Forall_forall in Hall.
    apply N.ltb_lt, Hall. by apply list_elem_of_In.
Qed.

Lemma string_encoding_needs_latin1_witness :
  (∃ encoded,
     _base64UrlEncode (OfString (js "{}")) = Ok encoded ∧
     Forall in_alphabet encoded ∧ decode encoded = js "{}") ∧
  _base64UrlEncode (OfString [20250%N]) = Throw "InvalidCharacterError".
Proof.
  split.
  - apply (string_encoding_needs_latin1 (js "{}")). vm_compute. repeat constructor.
  - apply (string_encoding_needs_latin1 [20250%N]).
    intros Hall. apply Forall_cons in Hall as [Hc _]. vm_compute in Hc. discriminate.
Defined.

Section WithCrypto.
Context `{WebCrypto}.

(** X4: [signMessage] fails in two ways only: without a private key,
    and when the serialized payload has a code unit above 255.  Otherwise it
    returns three URL-safe segments joined by two dots, the only dots of the
    token. *)
Theorem signMessage_outcomes
    (am : t) (payload : list (jsstring * json)) (now_iat now_exp : Z)
    (entropy : Entropy) :
  let serialized := JSON_stringify (JObj (fullPayload am payload now_iat now_exp)) in
  match signMessage am payload now_iat now_exp entropy with
  | Ok token =>
      is_Some (privateKey am) ∧
      forallb (λ c, c <? 256)%N serialized = true ∧
      ∃ h p s,
        token = h ++ js "." ++ p ++ js "." ++ s ∧
        Forall in_alphabet h ∧ Forall in_alphabet p ∧ Forall in_alphabet s ∧
        length (filter (λ c, c = 46%N) (token : list N)) = 2%nat
  | Throw message =>
      (privateKey am = None ∧ message = "No private key available"%string) ∨
      (is_Some (privateKey am) ∧
       forallb (λ c, c <? 256)%N serialized = false ∧
       message = "InvalidCharacterError"%string)
  end.
Proof.
  intros serialized. unfold signMessage.
  destruct (privateKey am) as [key|]; [|by left].
  cbv zeta. fold serialized.
  assert (_base64UrlEncode (OfString (JSON_stringify header))
          = Ok (unpadded (JSON_stringify header))) as ->
    by (by rewrite encode_string).
  cbn [JS.bind]. rewrite (encode_string serialized).
  destruct (forallb (λ c, c <? 256)%N serialized) eqn:Hs; cbn [JS.bind].
  - rewrite encode_bytes. cbn [JS.bind].
    split; [by eexists|]. split; [done|].
    set (h := unpadded (JSON_stringify header)).
    set (p := unpadded serialized).
    set (s := unpadded _).
    assert (Forall in_alphabet h) as Hh
      by (apply unpadded_in_alphabet; vm_compute; repeat constructor).
    assert (Forall in_alphabet p) as Hp.
    { apply unpadded_in_alphabet, Forall_forall. intros x Hx.
      rewrite forallb_forall in Hs. apply N.ltb_lt, Hs. by apply list_elem_of_In. }
    assert (Forall in_alphabet s) as Hsig
      by apply unpadded_in_alphabet, bytes_below_256.
    exists h, p, s. unfold signatureInput. rewrite <- !app_assoc.
    repeat split; try done.
    rewrite !filter_app, (alphabet_has_no_dot h Hh), (alphabet_has_no_dot p Hp),
      (alphabet_has_no_dot s Hsig).
    reflexivity.
  - right. split; [by eexists|]. done.
Qed.

(** X5: the object that is signed is the payload with [iat], [exp]
    and [instance_id] set from the clock and the manager, whatever the
    payload holds under these names; every other property is the
    payload's. *)
Theorem signed_object_lookup (am : t) (payload : list (jsstring * json))
    (now_iat now_exp : Z) (k : jsstring) :
  obj_get k (fullPayload am payload now_iat now_exp) =
    if decide (k = js "instance_id") then Some (string_or_null (instanceId am))
    else if decide (k = js "exp") then Some (JNum (now_exp / 1000 + 300))
    else if decide (k = js "iat") then Some (JNum (now_iat / 1000))
    else obj_get k payload.
Proof.
  unfold fullPayload.
  destruct (decide (k = js "instance_id")) as [->|H1];
    [apply AuthProps.obj_get_set_eq|].
  rewrite AuthProps.obj_get_set_ne by done.
  destruct (decide (k = js "exp")) as [->|H2]; [apply AuthProps.obj_get_set_eq|].
  rewrite AuthProps.obj_get_set_ne by done.
  destruct (decide (k = js "iat")) as [->|H3]; [apply AuthProps.obj_get_set_eq|].
  by rewrite AuthProps.obj_get_set_ne.
Qed.

(** *** The identity *)

Lemma initialize_result (g : Generated) (store : KeyStore) (am : t) :
  initialize g store am =
    match public_key_jwk store, private_key store with
    | Some jwk, Some key =>
        ({| privateKey := Some key; publicKeyJWK := Some jwk;
            instanceId := Some (settled_id g store) |},
         {| instance_id := Some (settled_id g store);
            public_key_jwk := Some jwk; private_key := Some key |})
    | _, _ =>
        ({| privateKey := Some (generated_privateKey g);
            publicKeyJWK := Some (generated_publicKeyJWK g);
            instanceId := Some (settled_id g store) |},
         {| instance_id := Some (settled_id g store);
            public_key_jwk := Some (generated_publicKeyJWK g);
            private_key := Some (generated_privateKey g) |})
    end.
Proof.
  unfold initialize, _getOrCreateInstanceId, _loadKeyPair, _generateKeyPair,
    settled_id.
  destruct store as [[id|] [jwk|] [key|]]; simpl;
    try destruct (decide (id = [])) as [->|]; simpl; try done.
Qed.


(** X7: once [initialize] has run, running it again, in the same
    manager or after a restart and whatever the platform would generate then,
    returns the same identity and leaves the store as it is. *)
Theorem initialize_is_stable (g g' : Generated) (store : KeyStore) (am am' : t) :
  randomUUID g ≠ [] →
  initialize g' (initialize g store am).2 am' = initialize g store am.
Proof.
  intros Huuid.
  assert (settled_id g store ≠ []) as Hid.
  { unfold settled_id. destruct (instance_id store) as [id|]; [|done].
    by destruct (decide (id = [])). }
  rewrite (initialize_result g store am).
  destruct (public_key_jwk store), (private_key store);
    rewrite initialize_result; simpl; unfold settled_id; simpl;
    by rewrite decide_False.
Qed.

(** Where the object store exists or the database does not, the
    database plays no part in [_generateKeyPair]. *)
Lemma generateKeyPair_in_settles (g : Generated) (db : Database)
    (store : KeyStore) (am : t) :
  db ≠ WithoutKeys →
  _generateKeyPair_in g db store am = Settled (_generateKeyPair g store am, WithKeys).
Proof. by destruct db. Qed.

(** X8: [reset] depends on the key database.  Where the database has
    the object store 'keys', [reset] replaces both halves of the key pair by
    the generated ones, in memory and in storage, keeps the instance id, and
    the next [initialize] loads the new pair.  Where the database does not
    exist yet or lacks the object store, [reset] never settles: it leaves the
    database without the object store, the generated pair in memory, the
    generated public key in storage, and no private key saved. *)
Theorem reset_outcome
    (g g' : Generated) (db : Database) (store : KeyStore) (am am' : t) :
  match db with
  | WithKeys =>
      ∃ am1 store1,
        reset g db store am = Settled (am1, store1, WithKeys) ∧
        privateKey am1 = Some (generated_privateKey g) ∧
        publicKeyJWK am1 = Some (generated_publicKeyJWK g) ∧
        instanceId am1 = instanceId am ∧
        private_key store1 = Some (generated_privateKey g) ∧
        public_key_jwk store1 = Some (generated_publicKeyJWK g) ∧
        instance_id store1 = instance_id store ∧
        privateKey (initialize g' store1 am').1 = Some (generated_privateKey g) ∧
        publicKeyJWK (initialize g' store1 am').1
          = Some (generated_publicKeyJWK g)
  | NoDatabase | WithoutKeys =>
      ∃ am1 store1,
        reset g db store am = NeverSettles (am1, store1, WithoutKeys) ∧
        privateKey am1 = Some (generated_privateKey g) ∧
        publicKeyJWK am1 = Some (generated_publicKeyJWK g) ∧
        instanceId am1 = instanceId am ∧
        public_key_jwk store1 = Some (generated_publicKeyJWK g) ∧
        private_key store1 = private_key store ∧
        instance_id store1 = instance_id store
  end.
Proof.
  destruct db; unfold reset, _deleteKeyPair, _deletePrivateKeyFromIndexedDB,
    _generateKeyPair_in, _savePrivateKeyToIndexedDB; cbv zeta;
    eexists _, _; (split; [reflexivity|]); try done.
  rewrite initialize_result. done.
Qed.

End WithCrypto.

Lemma initialize_is_stable_witness :
  AuthManager.randomUUID ClientSamples.new_identity ≠ [] ∧
  @initialize ClientSamples.toy_crypto
    {| randomUUID := js "another"; generated_privateKey := 99%N : @CryptoKey ClientSamples.toy_crypto;
       generated_publicKeyJWK := JNull |}
    (@initialize ClientSamples.toy_crypto ClientSamples.new_identity
       ClientSamples.empty_store constructor).2
    constructor
  = @initialize ClientSamples.toy_crypto ClientSamples.new_identity
      ClientSamples.empty_store constructor.
Proof.
  assert (AuthManager.randomUUID ClientSamples.new_identity ≠ []) as Huuid
    by (vm_compute; congruence).
  split; [exact Huuid|].
  exact (@initialize_is_stable ClientSamples.toy_crypto _ _ _ _ _ Huuid).
Defined.

End AuthExtras.


(** ** Further properties of the session client *)

Module ClientExtras.
Import StreamControllerClient.

Ltac unfold_client :=
  unfold react, timer_fired, connect, sendState, disconnect, getState,
    heartbeat_callback, _createSignedMessage,
    _handleServerMessage, _handleServerError, _onWebSocketConnected,
    _onWebSocketDisconnected, _onPairingAuthorized,
    _startHeartbeat, _stopHeartbeat, _emit,
    PairingManager.handleMessage, PairingManager._emit, PairingManager.authenticate,
    PairingManager.isAuthorized, PairingManager.isPending,
    PairingManager.markUnauthorized, PairingManager.reset,
    WebSocketManager.onopen, WebSocketManager.onmessage, WebSocketManager.onerror,
    WebSocketManager.onclose, WebSocketManager._emit, WebSocketManager.connect,
    WebSocketManager.send, WebSocketManager.disconnect, WebSocketManager.isConnected,
    WebSocketManager._scheduleReconnect, WebSocketManager.reconnect_callback,
    WebSocketManager.connect_timeout_callback,
    WebSocketManager.enableReconnect, WebSocketManager.disableReconnect,
    console_write, socket_send, clear_timer, detached;
  cbn [ws_handlers pairing_handlers WebSocketManager.on_connected
       WebSocketManager.on_disconnected WebSocketManager.on_message
       WebSocketManager.on_error].

(** Walks through a computation, leaving the updates to [leaf]. *)
Ltac walk leaf :=
  repeat first
    [ ClientProps.respects_step
    | apply ClientProps.respects_update; [intros ?; leaf]
    | intros ?; leaf ].

Ltac fields :=
  cbn [extensionId auth store pairing_state ws shouldReconnect reconnectTimer
       heartbeatTimer heartbeatInterval timers next_timer transport events
       console set_auth set_pairing_state set_ws set_shouldReconnect
       set_reconnectTimer set_heartbeatTimer set_timers set_transport
       set_events set_console fst snd negb orb andb].

Ltac run_client :=
  unfold step, exec; cbn [fst snd]; unfold_client; unfold_client;
  unfold bindM, try_catch, read, ret, throw, update, lift, set_timer.

(** Reduces the reads of fields, using what is known of them. *)
Ltac settle :=
  repeat (fields;
          match goal with
          | E : heartbeatTimer _ = _ |- _ => rewrite E
          | E : reconnectTimer _ = _ |- _ => rewrite E
          | E : shouldReconnect _ = _ |- _ => rewrite E
          | E : pairing_state _ = _ |- _ => rewrite E
          | E : ws _ = _ |- _ => rewrite E
          | E : timers _ !! _ = _ |- _ => rewrite E
          end);
  fields.

(** Settles the comparisons of string literals. *)
Ltac js_decide :=
  repeat match goal with
  | |- context [decide (js ?a = js ?b)] =>
      let e := fresh "e" in
      destruct (decide (js a = js b)) as [e|e];
      [try (vm_compute in e; discriminate e)
      |try (exfalso; apply e; reflexivity)]
  | |- context [decide (?P ∨ ?Q)] =>
      let e := fresh "e" in
      destruct (decide (P ∨ Q)) as [e|e];
      [|try (exfalso; apply e; clear;
             first [ left; reflexivity | right; left; reflexivity
                   | right; right; left; reflexivity
                   | right; right; right; reflexivity ])]
  end.

Section Phase.
Context `{WebCrypto}.

#[local] Instance authorizes_nothing_preorder : PreOrder authorizes_nothing.
Proof.
  split; [intros w Hw; exact Hw|].
  intros w1 w2 w3 H12 H23 H3. apply H12, H23, H3.
Qed.

Ltac phase_leaf :=
  unfold authorizes_nothing;
  try match goal with |- context [AuthManager.initialize ?g ?s ?a] =>
        destruct (AuthManager.initialize g s a) end;
  try match goal with |- context [ws ?w] => destruct (ws w) end;
  cbn; first [done | congruence].

Lemma react_authorizes_nothing o i :
  (∀ message, i = OnMessage (Some message) →
     is_string (obj_get (js "type") message) (js "handshake_success") = false) →
  respects authorizes_nothing (react o i).
Proof.
  intros Hi. destruct i as [| | | |[message|]| | | | |].
  5: {
    specialize (Hi message eq_refl). unfold_client. unfold_client.
    destruct (obj_get (js "type") message) as [[| | |t| |]|];
      cbv beta iota; simpl in Hi; try apply bool_decide_eq_false in Hi;
      walk phase_leaf. }
  all: unfold_client; unfold_client; walk phase_leaf.
Qed.

Lemma is_string_true (v : option json) (literal : jsstring) :
  is_string v literal = true → v = Some (JStr literal).
Proof.
  destruct v as [[| | |t| |]|]; simpl; try discriminate.
  intros Ht. apply bool_decide_eq_true in Ht. by subst.
Qed.

(** X9: a step that ends in the phase 'authorized' started in it, or is
    the arrival of a frame of type 'handshake_success': no call, timer or
    other frame authorizes the client. *)
Theorem authorized_only_by_handshake_success (w : World) (o : Oracle) (i : Input) :
  pairing_state (step w (o, i)) = authorized →
  pairing_state w = authorized ∨
  ∃ message, i = OnMessage (Some message) ∧
    obj_get (js "type") message = Some (JStr (js "handshake_success")).
Proof.
  intros Hafter.
  assert (∀ i', (∀ message, i' = OnMessage (Some message) → False) →
            ∀ message, i' = OnMessage (Some message) →
              is_string (obj_get (js "type") message) (js "handshake_success")
              = false) as Hother.
  { intros i' Hi' message Hm. destruct (Hi' message Hm). }
  destruct i as [| | | |[message|]| | | | |];
    try (left; refine (react_authorizes_nothing o _ (Hother _ _) w Hafter);
         intros ? [=]; fail).
  destruct (is_string (obj_get (js "type") message) (js "handshake_success"))
    eqn:Htype.
  - right. exists message. split; [done|]. by apply is_string_true.
  - left. refine (react_authorizes_nothing o _ _ w Hafter).
    by intros ? [= <-].
Qed.

(** X10: what the four pairing frames do.  'handshake_success' gives the
    phase 'authorized', a running heartbeat and the event 'connected';
    'handshake_pending' gives 'pending' and 'pairing-required';
    'handshake_denied' and 'handshake_timeout' give 'unauthorized' and an
    'error' event, and leave a running heartbeat timer running.  None of them
    sends a frame. *)
Theorem pairing_frames (w : World) (o : Oracle)
    (message : list (jsstring * json)) (t : jsstring) :
  obj_get (js "type") message = Some (JStr t) →
  let w' := step w (o, OnMessage (Some message)) in
  (t = js "handshake_success" →
     pairing_state w' = authorized ∧ events w' = events w ++ [Connected] ∧
     is_Some (heartbeatTimer w') ∧ transport w' = transport w) ∧
  (t = js "handshake_pending" →
     pairing_state w' = pending ∧ events w' = events w ++ [PairingRequired] ∧
     heartbeatTimer w' = heartbeatTimer w ∧ timers w' = timers w ∧
     transport w' = transport w) ∧
  (t = js "handshake_denied" →
     pairing_state w' = unauthorized ∧
     events w' = events w ++ [Error PairingDeniedByUser] ∧
     heartbeatTimer w' = heartbeatTimer w ∧ timers w' = timers w ∧
     transport w' = transport w) ∧
  (t = js "handshake_timeout" →
     pairing_state w' = unauthorized ∧
     events w' = events w ++ [Error PairingRequestTimedOut] ∧
     heartbeatTimer w' = heartbeatTimer w ∧ timers w' = timers w ∧
     transport w' = transport w).
Proof.
  intros Htype w'. subst w'. run_client. rewrite Htype.
  split; [|split; [|split]]; intros ->; js_decide; run_client; fields;
    try done.
  destruct (heartbeatTimer w) eqn:Hhb; fields; rewrite ?Hhb; done.
Qed.

End Phase.

Section Events.
Context `{WebCrypto}.

(** X11: a close event ends the authorization and the heartbeat and
    reports 'disconnected' with the reason of the event, or with
    'connection closed' when the reason is empty; nothing is sent; a
    reconnect is scheduled when reconnection is enabled and none is
    scheduled yet, and not otherwise. *)
Theorem close_event (w : World) (o : Oracle) (reason : jsstring) :
  let w' := step w (o, OnClose reason) in
  pairing_state w' = unauthorized ∧
  heartbeatTimer w' = None ∧
  events w' =
    events w ++
      [Disconnected (if decide (reason = []) then js "connection closed"
                     else reason)] ∧
  transport w' = transport w ∧
  shouldReconnect w' = shouldReconnect w ∧
  reconnectTimer w' =
    (if shouldReconnect w then
       match reconnectTimer w with
       | Some handle => Some handle
       | None => Some (next_timer w)
       end
     else reconnectTimer w) ∧
  timers w' =
    (let stopped :=
       match heartbeatTimer w with
       | Some handle => delete handle (timers w)
       | None => timers w
       end in
     if shouldReconnect w then
       match reconnectTimer w with
       | Some _ => stopped
       | None => <[next_timer w := ReconnectTimeout]> stopped
       end
     else stopped).
Proof.
  intros w'. subst w'. run_client.
  destruct (heartbeatTimer w) eqn:Hhb, (shouldReconnect w) eqn:Hsr,
    (reconnectTimer w) eqn:Hrc; settle; done.
Qed.

(** X12: when the socket opens, the handshake with the extension id,
    the instance id and the public key of the manager is sent and the phase
    becomes 'pending'; when the socket is not open at that moment, nothing is
    sent, the phase stays and the client reports the error. *)
Theorem open_event (w : World) (o : Oracle) :
  let w' := step w (o, OnOpen) in
  match ws w with
  | Some OPEN =>
      transport w' =
        transport w ++ [JSON_stringify (PairingManager.handshake w (metadata o))] ∧
      pairing_state w' = pending ∧ events w' = events w
  | _ =>
      transport w' = transport w ∧ pairing_state w' = pairing_state w ∧
      events w' = events w ++ [Error (Thrown "WebSocket not connected")]
  end.
Proof.
  intros w'. subst w'. run_client.
  destruct (ws w) as [[| | |]|] eqn:Hws; settle; done.
Qed.

(** X13: an 'error' frame with the code 'not_authorized' or
    'invalid_signature' ends the authorization and the heartbeat and sends
    the handshake again when the socket is open; with the socket not open the
    client stays 'unauthorized' and reports nothing.  Any other 'error' frame
    is reported as an 'error' event and changes nothing else. *)
Theorem server_error_frame (w : World) (o : Oracle)
    (message : list (jsstring * json)) :
  obj_get (js "type") message = Some (JStr (js "error")) →
  let w' := step w (o, OnMessage (Some message)) in
  if is_string (obj_get (js "error_code") message) (js "not_authorized")
     || is_string (obj_get (js "error_code") message) (js "invalid_signature")
  then
    heartbeatTimer w' = None ∧ events w' = events w ∧
    match ws w with
    | Some OPEN =>
        pairing_state w' = pending ∧
        transport w' =
          transport w ++ [JSON_stringify (PairingManager.handshake w (metadata o))]
    | _ => pairing_state w' = unauthorized ∧ transport w' = transport w
    end
  else
    events w' = events w ++ [Error (ServerError (obj_get (js "message") message))] ∧
    pairing_state w' = pairing_state w ∧ heartbeatTimer w' = heartbeatTimer w ∧
    timers w' = timers w ∧ transport w' = transport w.
Proof.
  intros Htype w'. subst w'. run_client. rewrite Htype. js_decide.
  destruct (_ || _); run_client; settle; [|done].
  destruct (heartbeatTimer w) eqn:Hhb, (ws w) as [[| | |]|] eqn:Hws; settle;
    done.
Qed.

(** X14: the heartbeat callback never throws.  With the socket open
    and the phase 'authorized' it sends the signed 'heartbeat' message, or
    logs an error when signing fails; otherwise it does nothing at all. *)
Theorem heartbeat_callback_outcome (w : World) (o : Oracle) :
  let payload := {| type := js "heartbeat"; data := JObj [] |} in
  let signed :=
    AuthManager.signMessage (auth w) (payload_props payload)
      (now_iat o) (now_exp o) (entropy o) in
  (heartbeat_callback o w).1 = Ok tt ∧
  (heartbeat_callback o w).2 =
    match ws w, pairing_state w, signed with
    | Some OPEN, authorized, Ok token =>
        set_transport
          (transport w ++ [JSON_stringify (signed_message w payload token)]) w
    | Some OPEN, authorized, Throw _ =>
        set_console
          (console w ++
             [(ERROR, "[StreamControllerClient] Error sending heartbeat:"%string)]) w
    | _, _, _ => w
    end.
Proof.
  intros payload signed. subst payload signed. run_client.
  destruct (ws w) as [[| | |]|] eqn:Hws, (pairing_state w) eqn:Hp; settle;
    repeat case_bool_decide; try congruence; settle; try done.
  destruct (AuthManager.signMessage _ _ _ _ _); settle; done.
Qed.

End Events.

Section Reconnect.
Context `{WebCrypto}.

#[local] Instance keeps_reconnect_owned_preorder : PreOrder keeps_reconnect_owned.
Proof.
  split; [intros w Hw; exact Hw|]. intros a b c Hab Hbc Ha. by apply Hbc, Hab.
Qed.

#[local] Instance keeps_reconnect_owned_framed : Framed keeps_reconnect_owned.
Proof. split; try (intros; intros Hw; exact Hw). apply _. Qed.

Ltac reconnect_table :=
  let h := fresh "h" in
  let Hh := fresh "Hh" in
  intros h; rewrite ?lookup_insert_Some, ?lookup_delete_Some; intros Hh;
  decompose [and or] Hh; clear Hh; subst; try discriminate;
  repeat match goal with
         | Hall : ∀ h, timers ?w !! h = Some ReconnectTimeout → _,
           Hx : timers ?w !! _ = Some ReconnectTimeout |- _ =>
             apply Hall in Hx
         end;
  congruence.

Lemma startHeartbeat_reconnect_owned : respects keeps_reconnect_owned _startHeartbeat.
Proof.
  intros w [Ho Hr]. split; [by apply ClientProps.startHeartbeat_owned|].
  revert Hr. run_client. destruct (heartbeatTimer w) eqn:Hhb; settle; [done|].
  intros Hr. reconnect_table.
Qed.

Lemma stopHeartbeat_reconnect_owned : respects keeps_reconnect_owned _stopHeartbeat.
Proof.
  intros w [Ho Hr]. split; [by apply ClientProps.stopHeartbeat_owned|].
  revert Hr. run_client. destruct (heartbeatTimer w) eqn:Hhb; settle; [|done].
  intros Hr. reconnect_table.
Qed.

Lemma ws_disconnect_reconnect_owned :
  respects keeps_reconnect_owned WebSocketManager.disconnect.
Proof.
  intros w [Ho Hr]. split; [by apply ClientProps.ws_disconnect_owned|].
  revert Hr. run_client.
  destruct (reconnectTimer w) eqn:Hrc, (ws w) eqn:Hws; settle; try done.
  all: intros Hr; reconnect_table.
Qed.

Lemma scheduleReconnect_reconnect_owned :
  respects keeps_reconnect_owned WebSocketManager._scheduleReconnect.
Proof.
  intros w [Ho Hr]. split; [by apply ClientProps.scheduleReconnect_owned|].
  revert Hr. run_client. destruct (reconnectTimer w) eqn:Hrc; settle; [done|].
  intros Hr. reconnect_table.
Qed.

Lemma ws_connect_reconnect_owned :
  respects keeps_reconnect_owned WebSocketManager.connect.
Proof.
  intros w [Ho Hr]. split; [by apply ClientProps.ws_connect_owned|].
  revert Hr. run_client. settle. intros Hr. reconnect_table.
Qed.

Lemma timer_fired_reconnect_owned o handle :
  respects keeps_reconnect_owned (timer_fired o handle).
Proof.
  intros w [Ho Hr]. split; [by apply ClientProps.timer_fired_owned|].
  revert Hr. unfold timer_fired, bindM, read. cbn [fst snd].
  destruct (timers w !! handle) as [[| |]|] eqn:Hh.
  - intros Hr.
    exact (proj2 (ClientProps.heartbeat_callback_respects
                    keeps_reconnect_owned o w (conj Ho Hr))).
  - run_client. settle. intros Hr. pose proof (Hr _ Hh) as Hrc.
    reconnect_table.
  - run_client. destruct (ws w) as [[| | |]|] eqn:Hws; settle; intros Hr;
      reconnect_table.
  - done.
Qed.

#[local] Instance keeps_reconnect_owned_client : ClientRelation keeps_reconnect_owned.
Proof.
  split; [apply _| | | | | | |].
  - apply startHeartbeat_reconnect_owned.
  - apply stopHeartbeat_reconnect_owned.
  - apply ws_disconnect_reconnect_owned.
  - apply scheduleReconnect_reconnect_owned.
  - apply ws_connect_reconnect_owned.
  - apply timer_fired_reconnect_owned.
  - intros w [Ho Hr]. split; [|exact Hr].
    unfold timers_owned in *. fields. by apply ClientProps.owned_next.
Qed.

Lemma step_reconnect_owned (w : World) (o : Oracle) (i : Input) :
  reconnect_owned w → reconnect_owned (step w (o, i)).
Proof.
  destruct (is_command_frame i) eqn:Hi.
  - destruct i as [| | | |[message|]| | | | |]; try discriminate.
    simpl in Hi. unfold step, exec; simpl.
    unfold WebSocketManager._emit, detached, try_catch.
    by rewrite ClientProps.handle_command.
  - by apply (ClientProps.step_respects keeps_reconnect_owned).
Qed.

Lemma run_reconnect_owned (w : World) (inputs : list (Oracle * Input)) :
  reconnect_owned w → reconnect_owned (run w inputs).
Proof.
  revert w. induction inputs as [|[o i] inputs IH]; intros w Hw; simpl; [done|].
  apply IH. by apply step_reconnect_owned.
Qed.

Lemma constructor_reconnect_owned extension_id persisted first_handle :
  reconnect_owned (constructor extension_id persisted first_handle).
Proof.
  split; [apply ClientProps.constructor_owned|].
  intros h. simpl. by rewrite lookup_empty.
Qed.

Lemma reconnect_timers_owned (w : World) :
  reconnect_owned w →
  reconnect_timers w = match reconnectTimer w with Some h => [h] | None => [] end.
Proof.
  intros [(_ & Hheld & _) Hlisted]. unfold reconnect_timers.
  assert (filter (λ kv : positive * TimerKind, kv.2 = ReconnectTimeout) (timers w)
          = match reconnectTimer w with
            | Some h => {[ h := ReconnectTimeout ]}
            | None => ∅
            end) as ->.
  { apply map_eq. intros h. apply option_eq. intros k.
    rewrite map_lookup_filter_Some. simpl.
    destruct (reconnectTimer w) as [h'|] eqn:Hrc.
    - rewrite lookup_singleton_Some. split.
      + intros [Hk ->]. apply Hlisted in Hk as [= ->]. done.
      + intros [<- <-]. split; [|done]. by apply Hheld.
    - rewrite lookup_empty. split; [|done]. intros [Hk ->].
      apply Hlisted in Hk. discriminate. }
  destruct (reconnectTimer w).
  - by rewrite map_to_list_singleton.
  - by rewrite map_to_list_empty.
Qed.

(** X15: in every world the client reaches, at most one reconnect timer
    is active and it is the one held in [reconnectTimer];
    [_scheduleReconnect] changes nothing while one is held and schedules
    exactly one otherwise; the callback of the timer and [disconnect] leave
    none. *)
Theorem at_most_one_reconnect_timer
    (extension_id : jsstring) (persisted : AuthManager.KeyStore)
    (first_handle : positive) (inputs : list (Oracle * Input)) (o : Oracle) :
  let w := run (constructor extension_id persisted first_handle) inputs in
  (length (reconnect_timers w) ≤ 1)%nat ∧
  reconnect_timers w = match reconnectTimer w with Some h => [h] | None => [] end ∧
  (match reconnectTimer w with
   | Some handle =>
       exec WebSocketManager._scheduleReconnect w = w ∧
       reconnect_timers (step w (o, TimerFired handle)) = []
   | None => ∃ h, reconnect_timers (exec WebSocketManager._scheduleReconnect w) = [h]
   end) ∧
  reconnect_timers (exec disconnect w) = [].
Proof.
  intros w.
  assert (reconnect_owned w) as Ho
    by apply run_reconnect_owned, constructor_reconnect_owned.
  pose proof (reconnect_timers_owned w Ho) as Hlist.
  split; [|split; [|split]].
  - rewrite Hlist. destruct (reconnectTimer w); simpl; lia.
  - done.
  - destruct (reconnectTimer w) as [handle|] eqn:Hrc.
    + split.
      * run_client. by settle.
      * rewrite (reconnect_timers_owned _ (step_reconnect_owned w o _ Ho)).
        destruct Ho as [(_ & Hheld & _) _]. apply Hheld in Hrc.
        run_client. by settle.
    + exists (next_timer w). unfold exec.
      rewrite (reconnect_timers_owned _ (scheduleReconnect_reconnect_owned w Ho)).
      run_client. by settle.
  - unfold exec.
    rewrite (reconnect_timers_owned _
               (ClientProps.disconnect_respects keeps_reconnect_owned w Ho)).
    run_client.
    destruct (heartbeatTimer w) eqn:Hhb, (reconnectTimer w) eqn:Hrc,
      (ws w) eqn:Hws; by settle.
Qed.

#[local] Instance keeps_reconnect_off_preorder : PreOrder keeps_reconnect_off.
Proof.
  split; [intros w Hw; exact Hw|]. intros a b c Hab Hbc Ha. by apply Hbc, Hab.
Qed.

Ltac off_leaf :=
  unfold keeps_reconnect_off, reconnect_off;
  try match goal with |- context [AuthManager.initialize ?g ?s ?a] =>
        destruct (AuthManager.initialize g s a) end;
  try match goal with |- context [ws ?w] => destruct (ws w) end;
  fields;
  let Hs := fresh "Hs" in
  let Hr := fresh "Hr" in
  let Ht := fresh "Ht" in
  let h := fresh "h" in
  let Hh := fresh "Hh" in
  intros (Hs & Hr & Ht);
  split; [first [done|congruence]|split; [first [done|congruence]|]];
  intros h; rewrite ?lookup_insert_Some, ?lookup_delete_Some; intros Hh;
  destruct_or?; destruct_and?; simplify_eq; by eapply Ht.

(** The end of [onclose]. *)
Lemma schedule_when_enabled_off :
  respects keeps_reconnect_off
    (let* again := read shouldReconnect in
     if again then WebSocketManager._scheduleReconnect else ret tt).
Proof.
  intros w Hoff. pose proof Hoff as (Hs & _ & _).
  unfold bindM, read, ret. by rewrite Hs.
Qed.

Lemma heartbeat_callback_off o : respects keeps_reconnect_off (heartbeat_callback o).
Proof. unfold_client. walk off_leaf. Qed.

Lemma connect_timeout_off handle :
  respects keeps_reconnect_off
    (clear_timer handle >> WebSocketManager.connect_timeout_callback).
Proof. unfold_client. walk off_leaf. Qed.

Lemma timer_fired_off o handle :
  respects keeps_reconnect_off (timer_fired o handle).
Proof.
  intros w Hoff. pose proof Hoff as (_ & _ & Ht). revert Hoff.
  unfold timer_fired, bindM at 1, read at 1. cbn [fst snd].
  destruct (timers w !! handle) as [[| |]|] eqn:Hh.
  - apply (heartbeat_callback_off o w).
  - by destruct (Ht handle).
  - apply (connect_timeout_off handle w).
  - done.
Qed.

Lemma react_off o i : respects keeps_reconnect_off (react o i).
Proof.
  destruct i as [| | | |[message|]| | | | |];
    try apply timer_fired_off;
    unfold_client; unfold_client;
    repeat first [ apply schedule_when_enabled_off
                 | ClientProps.respects_step
                 | apply ClientProps.respects_update; [intros ?; off_leaf]
                 | progress unfold_client
                 | intros ?; off_leaf ].
Qed.

Lemma run_off (w : World) (inputs : list (Oracle * Input)) :
  reconnect_off w → reconnect_off (run w inputs).
Proof.
  revert w. induction inputs as [|[o i] inputs IH]; intros w Hw; simpl; [done|].
  apply IH. by apply (react_off o i w).
Qed.

(** X16: nothing turns automatic reconnection on again.  After a call
    of [disconnect], whatever calls, frames, socket events and timers
    follow, a later [connect] included, reconnection stays disabled and no
    reconnect is scheduled: a connection that drops is not retried. *)
Theorem no_reconnect_after_disconnect
    (extension_id : jsstring) (persisted : AuthManager.KeyStore)
    (first_handle : positive) (before after : list (Oracle * Input))
    (o : Oracle) :
  let w :=
    run (constructor extension_id persisted first_handle)
      (before ++ (o, CallDisconnect) :: after) in
  shouldReconnect w = false ∧ reconnectTimer w = None ∧ reconnect_timers w = [].
Proof.
  intros w. subst w. unfold run. rewrite foldl_app. cbn [foldl].
  fold (run (constructor extension_id persisted first_handle) before).
  set (w0 := run (constructor extension_id persisted first_handle) before).
  fold (run (step w0 (o, CallDisconnect)) after).
  assert (reconnect_owned w0) as Ho
    by apply run_reconnect_owned, constructor_reconnect_owned.
  assert (reconnect_off (step w0 (o, CallDisconnect))) as Hoff.
  { pose proof (step_reconnect_owned w0 o CallDisconnect Ho) as [_ Hlisted].
    revert Hlisted. run_client.
    destruct (heartbeatTimer w0) eqn:Hhb, (reconnectTimer w0) eqn:Hrc,
      (ws w0) eqn:Hws; settle; intros Hlisted;
      (split; [done|split; [done|]]); intros h Hh;
      by apply Hlisted in Hh. }
  pose proof (run_off _ after Hoff) as (Hs & Hr & Ht).
  split; [done|split; [done|]].
  unfold reconnect_timers.
  match goal with |- (map_to_list ?m).*1 = [] =>
    assert (m = ∅) as ->; [|by rewrite map_to_list_empty] end.
  apply map_empty. intros h. apply eq_None_not_Some. intros [k Hk].
  apply map_lookup_filter_Some in Hk as [Hk Hkind]. simpl in Hkind. subst k.
  by apply (Ht h).
Qed.

(** The reconnect timer the socket manager holds after a close event. *)
Lemma close_reconnectTimer (w : World) (o : Oracle) (reason : jsstring) :
  reconnectTimer (step w (o, OnClose reason)) =
    if shouldReconnect w then
      match reconnectTimer w with
      | Some handle => Some handle
      | None => Some (next_timer w)
      end
    else reconnectTimer w.
Proof.
  run_client.
  destruct (heartbeatTimer w) eqn:Hhb, (shouldReconnect w) eqn:Hsr,
    (reconnectTimer w) eqn:Hrc; settle; done.
Qed.

(** X20: the two switches of the socket manager.  In every world the
    client reaches, [disableReconnect] leaves no reconnect timer and keeps the
    socket, and a close event after it schedules nothing; after
    [enableReconnect] a close event leaves exactly one reconnect timer. *)
Theorem reconnect_switches
    (extension_id : jsstring) (persisted : AuthManager.KeyStore)
    (first_handle : positive) (inputs : list (Oracle * Input)) (o : Oracle)
    (reason : jsstring) :
  let w := run (constructor extension_id persisted first_handle) inputs in
  let off := exec WebSocketManager.disableReconnect w in
  let on := exec WebSocketManager.enableReconnect w in
  reconnect_timers off = [] ∧ ws off = ws w ∧
  reconnect_timers (step off (o, OnClose reason)) = [] ∧
  ∃ h, reconnect_timers (step on (o, OnClose reason)) = [h].
Proof.
  intros w off on.
  assert (reconnect_owned w) as Ho
    by apply run_reconnect_owned, constructor_reconnect_owned.
  assert (reconnect_owned off ∧ reconnectTimer off = None ∧
          shouldReconnect off = false ∧ ws off = ws w) as (Hoff & Hrc & Hsr & Hws).
  { subst off. destruct Ho as [Ho Hlisted]. revert Ho Hlisted.
    unfold reconnect_owned, timers_owned. run_client.
    destruct (reconnectTimer w) as [handle|] eqn:Hrc; settle;
      intros Ho Hlisted; (split; [split|repeat split]); try done.
    - pose proof Ho as (_ & Hheld & _).
      by eapply (ClientProps.owned_clear_other _ _ _ _ _ ReconnectTimeout);
        [apply Hheld| |exact Ho].
    - reconnect_table. }
  assert (reconnect_owned on ∧ shouldReconnect on = true ∧
          reconnectTimer on = reconnectTimer w) as (Hon & Hsr' & Hrc').
  { subst on. by run_client. }
  split; [by rewrite (reconnect_timers_owned _ Hoff), Hrc|].
  split; [done|]. split.
  - rewrite (reconnect_timers_owned _ (step_reconnect_owned off o _ Hoff)).
    by rewrite close_reconnectTimer, Hsr, Hrc.
  - rewrite (reconnect_timers_owned _ (step_reconnect_owned on o _ Hon)).
    rewrite close_reconnectTimer, Hsr'.
    destruct (reconnectTimer on); by eexists.
Qed.

End Reconnect.

Section Identity.
Context `{WebCrypto}.



End Identity.

Lemma authorized_only_by_handshake_success_witness :
  let w' := @step ClientSamples.toy_crypto ClientSamples.fresh_client
              (ClientSamples.oracle, OnMessage (Some ClientSamples.handshake_success)) in
  pairing_state w' = authorized ∧
  (pairing_state ClientSamples.fresh_client = authorized ∨
   ∃ message,
     OnMessage (Some ClientSamples.handshake_success) = OnMessage (Some message) ∧
     obj_get (js "type") message = Some (JStr (js "handshake_success"))).
Proof.
  assert (pairing_state
            (@step ClientSamples.toy_crypto ClientSamples.fresh_client
               (ClientSamples.oracle,
                OnMessage (Some ClientSamples.handshake_success))) = authorized)
    as Hafter by (vm_compute; reflexivity).
  split; [exact Hafter|].
  exact (@authorized_only_by_handshake_success ClientSamples.toy_crypto _ _ _ Hafter).
Defined.

Lemma server_error_frame_witness :
  let message :=
    [ (js "type", JStr (js "error")); (js "error_code", JStr (js "not_authorized")) ] in
  let w' := @step ClientSamples.toy_crypto ClientSamples.authorized_client
              (ClientSamples.oracle, OnMessage (Some message)) in
  heartbeatTimer w' = None ∧ events w' = events ClientSamples.authorized_client ∧
  pairing_state w' = pending ∧
  transport w' =
    transport ClientSamples.authorized_client ++
      [JSON_stringify
         (PairingManager.handshake ClientSamples.authorized_client
            (metadata ClientSamples.oracle))].
Proof.
  intros message.
  pose proof (@server_error_frame ClientSamples.toy_crypto
                ClientSamples.authorized_client ClientSamples.oracle message
                eq_refl) as Hframe.
  cbv beta zeta in Hframe.
  destruct Hframe as (Hhb & Hev & Hrest). repeat split; try assumption.
  all: apply Hrest.
Defined.

Lemma pairing_frames_witness :
  let w' := @step ClientSamples.toy_crypto ClientSamples.fresh_client
              (ClientSamples.oracle, OnMessage (Some ClientSamples.handshake_success)) in
  pairing_state w' = authorized ∧ events w' = [Connected] ∧
  is_Some (heartbeatTimer w') ∧ transport w' = [].
Proof.
  apply (@pairing_frames ClientSamples.toy_crypto ClientSamples.fresh_client
           ClientSamples.oracle ClientSamples.handshake_success
           (js "handshake_success")); reflexivity.
Defined.

End ClientExtras.


(** ** Further properties of the reconciler *)

Module ReconcilerExtras.
Import MeetingTabStateManager.

Lemma last_reported_snoc (known : MeetingState) (events : list MeetingState)
    (s : MeetingState) :
  last_reported known (events ++ [s]) = s.
Proof. unfold last_reported. by rewrite last_snoc. Qed.

Lemma last_with_known (known : MeetingState) (events : list MeetingState) :
  last (known :: events) = Some (last_reported known events).
Proof.
  unfold last_reported. rewrite last_cons. by destruct (last events).
Qed.

Lemma no_repeats_snoc (known : MeetingState) (events : list MeetingState)
    (s : MeetingState) :
  no_repeats (known :: events) →
  serialize (last_reported known events) ≠ serialize s →
  no_repeats (known :: events ++ [s]).
Proof.
  intros Hold Hnew i a b Ha Hb.
  rewrite app_comm_cons in Ha, Hb.
  pose proof (last_with_known known events) as Hlast.
  rewrite last_lookup in Hlast.
  set (l := known :: events) in *. clearbody l.
  destruct (decide (S i < length l)%nat) as [Hlt|Hge].
  - rewrite lookup_app_l in Ha by lia. rewrite lookup_app_l in Hb by lia.
    by apply (Hold i).
  - destruct (decide (S i = length l)) as [Heq|Hne].
    + rewrite lookup_app_l in Ha by lia.
      rewrite lookup_app_r in Hb by lia.
      replace (S i - length l)%nat with 0%nat in Hb by lia.
      injection Hb as <-.
      replace (Nat.pred (length l)) with i in Hlast by lia.
      rewrite Hlast in Ha. by injection Ha as <-.
    + apply lookup_lt_Some in Hb. rewrite length_app in Hb. simpl in Hb. lia.
Qed.

(** One emission test keeps the events in step with the state. *)
Lemma emission_keeps_sync (known : MeetingState) (w w' : World) :
  (emitted w' = emitted w ++ [getCurrentState w'] ∧
   serialize (getCurrentState w) ≠ serialize (getCurrentState w')) ∨
  (emitted w' = emitted w ∧
   serialize (getCurrentState w) = serialize (getCurrentState w')) →
  in_sync known w → in_sync known w'.
Proof.
  intros [[Hev Hne]|[Hev Heq]] [Hcur Hrep]; unfold in_sync; rewrite Hev.
  - split; [by rewrite last_reported_snoc|].
    apply no_repeats_snoc; [done|]. by rewrite <- Hcur.
  - split; [by rewrite <- Heq|done].
Qed.

Lemma step_in_sync (known : MeetingState) (m : Manager) (w : World) (c : Call) :
  in_sync known w → in_sync known (step m w c).
Proof.
  intros Hw.
  assert (∀ now, in_sync known (_cleanStaleStates m now w)) as Hclean.
  { intros now.
    exact (emission_keeps_sync known w _
             (ReconcilerProps.clean_emitted m now w) Hw). }
  destruct c as [now|now_clean now_update tab st|now]; simpl; [done| |done].
  unfold updateTabState.
  exact (emission_keeps_sync known _ _
           (ReconcilerProps.update_emitted now_update tab st _)
           (Hclean now_clean)).
Qed.

(** X17: take a manager constructed over any stored value, as after a
    restart of the service worker, and calls that run one after the other.
    A listener that knew the state when the manager was constructed and
    keeps the last 'state-changed' event since always holds the current
    state, up to serialization, and no two events in a row serialize
    alike.  On a fresh profile the state at construction is [NULL_STATE]. *)
Theorem events_track_state (m : Manager) (w0 : World) (calls : list Call) :
  let known := getCurrentState w0 in
  let w := run_from m (restarted w0) calls in
  serialize (getCurrentState w) = serialize (last_reported known (emitted w)) ∧
  no_repeats (known :: emitted w) ∧
  getCurrentState initial_world = NULL_STATE.
Proof.
  intros known w.
  assert (in_sync known w) as [Hcur Hrep]; [|done].
  subst w. unfold run_from.
  assert (in_sync known (restarted w0)) as Hinit.
  { split; [done|]. intros i a b Ha Hb. by destruct i. }
  revert Hinit. generalize (restarted w0).
  induction calls as [|c calls IH]; intros w Hw; simpl; [done|].
  apply IH. by apply step_in_sync.
Qed.

(** Events alone do not tell the state after a restart: over the store
    that [Samples.two_tabs] leaves, a new manager emits nothing on [init]
    while the current state is a meeting. *)
Example restart_emits_nothing :
  let w := run_from Samples.manager
             (restarted (run Samples.manager Samples.two_tabs)) [CallInit 3000] in
  emitted w = [] ∧ getCurrentState w = Samples.retro.
Proof. vm_compute. done. Qed.

(** X18: [updateTabState] stores the report under the tab with the
    time of the call, keeps the reports of the other tabs that the sweep at
    its start keeps, and recomputes the active tab: a tab that reports a
    meeting makes a tab up to itself active, a tab that reports no meeting is
    not the active tab. *)
Theorem update_stores_report
    (m : Manager) (now_clean now_update : Z) (tab : N) (st : MeetingState)
    (w : World) :
  let w' := updateTabState m now_clean now_update tab st w in
  tabStates (_readStorage w') !! tab
    = Some {| tabId := tab; state := st; last_updated := now_update |} ∧
  (∀ k e, k ≠ tab →
     tabStates (_readStorage w') !! k = Some e ↔
     tabStates (_readStorage w) !! k = Some e ∧
     now_clean - last_updated e ≤ timeout m) ∧
  getActiveMeetingTabId w'
    = _findActiveMeetingTabIdFromStates (tabStates (_readStorage w')) ∧
  (if in_meeting st
   then ∃ a, getActiveMeetingTabId w' = Some a ∧ (a ≤ tab)%N
   else getActiveMeetingTabId w' ≠ Some tab).
Proof.
  intros w'.
  assert (tabStates (_readStorage w')
          = <[tab := {| tabId := tab; state := st; last_updated := now_update |}]>
              (tabStates (_readStorage (_cleanStaleStates m now_clean w)))) as Hts.
  { subst w'. unfold updateTabState, update_after_clean. cbv zeta.
    by case_decide. }
  assert (getActiveMeetingTabId w'
          = _findActiveMeetingTabIdFromStates (tabStates (_readStorage w'))) as Hact.
  { apply (ReconcilerProps.update_consistent now_update tab st
             (_cleanStaleStates m now_clean w)). }
  split; [|split; [|split]].
  - by rewrite Hts, lookup_insert_eq.
  - intros k e Hk. rewrite Hts, lookup_insert_ne; [|done].
    apply ReconcilerProps.clean_tabStates.
  - done.
  - rewrite Hact. destruct (in_meeting st) eqn:Hin.
    + destruct (_findActiveMeetingTabIdFromStates (tabStates (_readStorage w')))
        as [a|] eqn:Hfind.
      * exists a. split; [done|].
        apply ReconcilerProps.find_active_Some in Hfind as [_ Hmin].
        apply Hmin. eexists. split; [by rewrite Hts, lookup_insert_eq|done].
      * exfalso.
        apply (proj1 (ReconcilerProps.find_active_None _) Hfind tab).
        eexists. split; [by rewrite Hts, lookup_insert_eq|done].
    + intros Hfind.
      apply ReconcilerProps.find_active_Some in Hfind as [(e & He & Hmeet) _].
      rewrite Hts, lookup_insert_eq in He. injection He as <-.
      simpl in Hmeet. congruence.
Qed.

Lemma clean_nothing_stale (m : Manager) (now : Z) (w : World) :
  (clean_loop m now (tabStates (_readStorage w))).2 = false →
  _cleanStaleStates m now w = w.
Proof.
  intros Hflag. unfold _cleanStaleStates.
  destruct (clean_loop m now (tabStates (_readStorage w))) as [ts d].
  simpl in Hflag. by subst d.
Qed.

Lemma clean_something_stale (m : Manager) (now : Z) (w : World) :
  (clean_loop m now (tabStates (_readStorage w))).2 = true →
  storage (_cleanStaleStates m now w) =
    Some {| tabStates := (clean_loop m now (tabStates (_readStorage w))).1;
            activeMeetingTabId :=
              _findActiveMeetingTabIdFromStates
                (clean_loop m now (tabStates (_readStorage w))).1 |}.
Proof.
  intros Hflag. unfold _cleanStaleStates.
  destruct (clean_loop m now (tabStates (_readStorage w))) as [ts d].
  simpl in Hflag. subst d. cbv zeta. by case_decide.
Qed.

Lemma clean_loop_twice (m : Manager) (now now' : Z) (ts : gmap N TabEntry) :
  now ≤ now' →
  (clean_loop m now' (clean_loop m now ts).1).1 = (clean_loop m now' ts).1.
Proof.
  intros Hle. apply map_eq. intros k. apply option_eq. intros e.
  rewrite !ReconcilerProps.clean_loop_lookup. intuition lia.
Qed.

Lemma not_true_false (b : bool) : b ≠ true → b = false.
Proof. by destruct b. Qed.

(** X19: sweeps compose.  A sweep followed by a later sweep leaves in
    storage what the later sweep alone leaves, and a sweep repeated at the
    same time changes nothing and emits nothing. *)
Theorem sweeps_compose (m : Manager) (now now' : Z) (w : World) :
  now ≤ now' →
  storage (_cleanStaleStates m now' (_cleanStaleStates m now w))
    = storage (_cleanStaleStates m now' w) ∧
  _cleanStaleStates m now (_cleanStaleStates m now w) = _cleanStaleStates m now w.
Proof.
  intros Hle.
  set (ts := tabStates (_readStorage w)).
  assert (∀ later, now ≤ later →
            tabStates (_readStorage (_cleanStaleStates m now w))
            = (clean_loop m now ts).1) as Hfirst.
  { intros _ _.
    destruct ((clean_loop m now ts).2) eqn:Hd.
    - unfold _readStorage at 1. by rewrite clean_something_stale.
    - rewrite clean_nothing_stale by done.
      symmetry. by apply ReconcilerProps.clean_loop_unchanged. }
  specialize (Hfirst now' Hle).
  split.
  - destruct ((clean_loop m now ts).2) eqn:Hd1;
      [|by rewrite (clean_nothing_stale m now w)].
    destruct ((clean_loop m now' (clean_loop m now ts).1).2) eqn:Hd2.
    + rewrite clean_something_stale by (by rewrite Hfirst).
      rewrite clean_something_stale.
      * fold ts. by rewrite Hfirst, clean_loop_twice.
      * apply ReconcilerProps.clean_loop_deleted.
        apply ReconcilerProps.clean_loop_deleted in Hd2 as (k & e & Hk & Hstale).
        apply ReconcilerProps.clean_loop_lookup in Hk as [Hk _]. eauto.
    + rewrite (clean_nothing_stale m now') by (by rewrite Hfirst).
      rewrite clean_something_stale by done.
      rewrite clean_something_stale.
      * fold ts. rewrite <- (clean_loop_twice m now now' ts Hle).
        by rewrite (ReconcilerProps.clean_loop_unchanged _ _ _ Hd2).
      * apply ReconcilerProps.clean_loop_deleted.
        apply ReconcilerProps.clean_loop_deleted in Hd1 as (k & e & Hk & Hstale).
        exists k, e. split; [done|lia].
  - apply clean_nothing_stale. apply not_true_false. intros Hd.
    apply ReconcilerProps.clean_loop_deleted in Hd as (k & e & Hk & Hstale).
    apply ReconcilerProps.clean_tabStates in Hk as [_ Hkept]. lia.
Qed.

Lemma sweeps_compose_witness :
  storage (_cleanStaleStates Samples.manager 70000
             (_cleanStaleStates Samples.manager 61500
                (run Samples.manager Samples.two_tabs)))
    = storage (_cleanStaleStates Samples.manager 70000
                 (run Samples.manager Samples.two_tabs)) ∧
  _cleanStaleStates Samples.manager 61500
    (_cleanStaleStates Samples.manager 61500 (run Samples.manager Samples.two_tabs))
    = _cleanStaleStates Samples.manager 61500 (run Samples.manager Samples.two_tabs).
Proof.
  apply (sweeps_compose Samples.manager 61500 70000
           (run Samples.manager Samples.two_tabs)).
  lia.
Defined.

End ReconcilerExtras.
